(** * SiteInspector: a shallow embedding of [site_inspector.py]

    The crawler of [site_inspector.py] is embedded as a small-step
    transition system.  The main thread of [crawl] and the pool workers
    running [process_page] are interleaved at the granularity of their
    accesses to the module-level globals [visited] and [crawl_count]:
    a step is one test of a loop condition, one pop with its
    test-and-insert under [visited_lock], one round of the [as_completed]
    loop, or one locked access of a worker.  Every interleaving of these
    steps is an execution; [step_fn] runs one step of the thread a label
    names, and [run] follows a schedule.

    The network, the HTML analysis and robots.txt are oracles: [net]
    says what the GET and the analysis of a page give, a
    [Robots.response] what the request for robots.txt gives.  The parts
    of [urllib.parse] and [urllib.robotparser] that the code calls are
    modelled after CPython 3.11.

    The analysis of a fetched page is embedded on its own, over the
    parse tree of BeautifulSoup ([Html]): [get_visible_text], which
    takes the [script], [style] and [noscript] tags out of the tree it
    shares with the rest of [process_page], [check_spelling] with the
    spell checker as an oracle, [check_broken_links] with the resolution
    of [urljoin] and the HEAD requests as oracles, and the text file of
    [export_report].  Texts are strings over the characters below 256;
    [str.split], [str.isspace] and the pattern of [check_spelling] are
    modelled after CPython 3.11.

    Python integers are [Z], [len] is [Z.of_nat (length _)], the set
    [visited] is a [gset], the dict [report] a [gmap], the lists
    [to_visit] and [new_links] are lists.  Line numbers are those of
    [site_inspector.py]. *)

From Stdlib Require Import ZArith Lia Ascii String List.
From stdpp Require Import base decidable option list sets gmap strings pretty.

Local Open Scope string_scope.
Local Open Scope Z_scope.

(** ** URLs: the part of [urllib.parse] that [is_internal_link] uses *)

Abbreviation url := string (only parsing).

Module Url.

Definition code (c : ascii) : N := N_of_ascii c.

Definition between (lo hi : ascii) (c : ascii) : bool :=
  ((code lo <=? code c) && (code c <=? code hi))%N.

Definition is_alpha (c : ascii) : bool :=
  between "a" "z" c || between "A" "Z" c.

Definition is_digit (c : ascii) : bool := between "0" "9" c.

(** [scheme_chars] of [urllib/parse.py]. *)
Definition scheme_char (c : ascii) : bool :=
  is_alpha c || is_digit c
  || Ascii.eqb c "+" || Ascii.eqb c "-" || Ascii.eqb c ".".

(** [_WHATWG_C0_CONTROL_OR_SPACE]: the characters 0x00 .. 0x20. *)
Definition c0_or_space (c : ascii) : bool := (code c <=? 32)%N.

Fixpoint lstrip (s : string) : string :=
  match s with
  | String c s' => if c0_or_space c then lstrip s' else s
  | EmptyString => EmptyString
  end.

(** [_UNSAFE_URL_BYTES_TO_REMOVE]: tab, carriage return, newline. *)
Definition unsafe_byte (c : ascii) : bool :=
  ((code c =? 9) || (code c =? 13) || (code c =? 10))%N.

Fixpoint remove_unsafe (s : string) : string :=
  match s with
  | String c s' =>
      if unsafe_byte c then remove_unsafe s' else String c (remove_unsafe s')
  | EmptyString => EmptyString
  end.

(** The text after the first [":"], when every character before it is a
    scheme character ([url.find(':')] and the [for ... else] of
    [urlsplit]). *)
Fixpoint after_scheme (s : string) : option string :=
  match s with
  | String c s' =>
      if Ascii.eqb c ":" then Some s'
      else if scheme_char c then after_scheme s' else None
  | EmptyString => None
  end.

Definition strip_scheme (s : string) : string :=
  match s with
  | String c _ =>
      if is_alpha c then
        match after_scheme s with Some rest => rest | None => s end
      else s
  | EmptyString => s
  end.

Definition netloc_delim (c : ascii) : bool :=
  Ascii.eqb c "/" || Ascii.eqb c "?" || Ascii.eqb c "#".

(** [_splitnetloc(url, 2)], first component. *)
Fixpoint take_netloc (s : string) : string :=
  match s with
  | String c s' => if netloc_delim c then EmptyString else String c (take_netloc s')
  | EmptyString => EmptyString
  end.

Fixpoint contains (x : ascii) (s : string) : bool :=
  match s with
  | String c s' => Ascii.eqb c x || contains x s'
  | EmptyString => false
  end.

(** [urlparse(url).netloc]; [None] stands for the [ValueError]
    ("Invalid IPv6 URL") that [urlsplit] raises on an unbalanced bracket.
    The validation of a balanced bracketed literal and the NFKC check of a
    non-ASCII netloc are not part of this model. *)
Definition urlparse_netloc (u : url) : option string :=
  match strip_scheme (remove_unsafe (lstrip u)) with
  | String "/" (String "/" rest) =>
      let netloc := take_netloc rest in
      if xorb (contains "[" netloc) (contains "]" netloc) then None
      else Some netloc
  | _ => Some EmptyString
  end.

(** Whether [urlsplit] finds an authority: the text after the scheme
    starts with ["//"]. *)
Definition has_authority (u : url) : bool :=
  match strip_scheme (remove_unsafe (lstrip u)) with
  | String "/" (String "/" _) => true
  | _ => false
  end.

(** [str.lower] on ASCII. *)
Definition lower_char (c : ascii) : ascii :=
  if between "A" "Z" c then ascii_of_N (code c + 32) else c.

Fixpoint lower (s : string) : string :=
  match s with
  | String c s' => String (lower_char c) (lower s')
  | EmptyString => EmptyString
  end.

(** The URL without its fragment ([urldefrag(url).url]): the text before
    the first ["#"]. *)
Fixpoint strip_fragment (s : string) : string :=
  match s with
  | String c s' => if Ascii.eqb c "#" then EmptyString else String c (strip_fragment s')
  | EmptyString => EmptyString
  end.

End Url.

(** [is_internal_link] (lines 24-27), over the library's [netloc]
    extraction; [None] is the [ValueError] of [urlparse]. *)
Definition is_internal_link (netloc_of : url -> option string)
    (base_url link : url) : option bool :=
  match netloc_of base_url with
  | None => None
  | Some parsed_base =>
      match netloc_of link with
      | None => None
      | Some parsed_link =>
          Some (String.eqb parsed_link "" || String.eqb parsed_link parsed_base)
      end
  end.

(** The internal-link test as the specification words it: the
    candidate's host is empty or equals the site root's host compared
    case-insensitively, and a malformed URL is external. *)
Definition is_internal_spec (netloc_of : url -> option string)
    (site_root candidate : url) : bool :=
  match netloc_of site_root, netloc_of candidate with
  | Some root_host, Some host =>
      String.eqb host ""
      || String.eqb (Url.lower host) (Url.lower root_host)
  | _, _ => false
  end.

(** ** robots.txt: [urllib.robotparser.RobotFileParser] as [crawl] uses it *)

Module Robots.

(** The fields that [read] and [can_fetch] touch.  [last_checked] is the
    truth value of the time stamp; [entries] is the verdict of the rule
    search of [can_fetch] for the user agent ["*"], [None] when that
    search raises. *)
Record RobotFileParser := {
  disallow_all : bool;
  allow_all : bool;
  last_checked : bool;
  entries : url -> option bool
}.

(** [RobotFileParser()]: nothing read yet, no rule ([can_fetch] then
    ends in "agent not found ==> access granted"). *)
Definition fresh : RobotFileParser :=
  {| disallow_all := false; allow_all := false; last_checked := false;
     entries := fun _ => Some true |}.

(** What the request for robots.txt does. *)
Inductive response :=
| UrlopenRaises                       (* URLError, timeout: not an HTTPError *)
| HTTPError (code : Z)
| Body (decodes : bool) (rules : url -> option bool).

(** [read]: the parser afterwards, and whether an exception left it. *)
Definition read (resp : response) (rp : RobotFileParser)
    : RobotFileParser * bool :=
  match resp with
  | UrlopenRaises => (rp, true)
  | HTTPError code =>
      if (code =? 401) || (code =? 403) then
        ({| disallow_all := true; allow_all := allow_all rp;
            last_checked := last_checked rp; entries := entries rp |}, false)
      else if (400 <=? code) && (code <? 500) then
        ({| disallow_all := disallow_all rp; allow_all := true;
            last_checked := last_checked rp; entries := entries rp |}, false)
      else (rp, false)
  | Body false _ => (rp, true)        (* raw.decode raises *)
  | Body true rules =>
      ({| disallow_all := disallow_all rp; allow_all := allow_all rp;
          last_checked := true; entries := rules |}, false)
  end.

Definition can_fetch (rp : RobotFileParser) (u : url) : option bool :=
  if disallow_all rp then Some false
  else if allow_all rp then Some true
  else if negb (last_checked rp) then Some false
  else entries rp u.

(** Lines 121-126 of [crawl]: the exception of [read] is swallowed. *)
Definition load (resp : response) : RobotFileParser := fst (read resp fresh).

End Robots.

(** [can_fetch_url] (lines 59-63). *)
Definition can_fetch_url (u : url) (rp : Robots.RobotFileParser) : bool :=
  match Robots.can_fetch rp u with
  | Some b => b
  | None => true
  end.

(** ** Page results and the network oracle *)

(** [result] of [process_page]: the dict with the keys
    ["spelling_issues"] and ["broken_links"]. *)
Record page_result := PageResult {
  spelling_issues : gmap string (option string);
  broken_links : list url
}.

Definition empty_result : page_result := PageResult ∅ [].

(** What lines 81-89 of [process_page] do for a URL.  [anchors] are the
    values [urljoin(url, link_tag["href"])] of the page's [a] tags, in
    document order. *)
Inductive get_outcome :=
| GetRaises                                   (* [requests.get] raises *)
| LinkCheckRaises (spelling : gmap string (option string))
                                              (* [check_broken_links] raises *)
| Fetched (spelling : gmap string (option string))
          (broken : list url) (anchors : list url).

(** Lines printed by [process_page]. *)
Inductive line :=
| Crawled (current_count max_pages : Z) (u : url)
| ErrorCrawling (u : url).

Definition is_progress (l : line) : bool :=
  match l with Crawled _ _ _ => true | ErrorCrawling _ => false end.

(** ** The threads *)

(** Where a pool worker stands in [process_page]. *)
Inductive wstate :=
| WGate                                       (* line 73 *)
| WFetch                                      (* lines 77-89 *)
| WLinks (result : page_result) (todo : list url) (new_links : list url)
                                              (* lines 92-97, then 102 *)
| WPrint (result : page_result) (new_links : list url) (current_count : Z)
                                              (* line 106 *)
| WDone (ret : option page_result) (new_links : list url).

(** Where the main thread stands in [crawl]. *)
Inductive pc :=
| Outer        (* line 128 *)
| Inner        (* line 131 *)
| Pop          (* lines 132-138 *)
| Collect      (* lines 140-150 *)
| Returned     (* line 154 *)
| Raised       (* [ThreadPoolExecutor] refuses [max_workers <= 0] *).

#[global] Instance pc_eq_dec : EqDecision pc.
Proof. solve_decision. Defined.

(** The module-level globals, the locals of [crawl], and what the run
    has done to the world: the pages requested with GET and the lines
    printed. *)
Record config := Config {
  visited : gset url;
  crawl_count : Z;
  to_visit : list url;
  report : gmap url page_result;
  futures : list (url * wstate);
  ctl : pc;
  gets : list url;
  stdout : list line
}.

Definition len {A} (l : list A) : Z := Z.of_nat (length l).
Global Arguments len : simpl never.

(** Lines 148-150. *)
Fixpoint add_links (visited : gset url) (max_pages : Z)
    (to_visit : list url) (new_links : list url) : list url :=
  match new_links with
  | [] => to_visit
  | link :: rest =>
      if bool_decide (link ∉ visited)
         && (Z.of_nat (size visited) + len to_visit <? max_pages)
      then add_links visited max_pages (to_visit ++ [link]) rest
      else add_links visited max_pages to_visit rest
  end.

Inductive label :=
| LMain
| LCollect (i : nat)
| LWorker (i : nat).

Module Crawler.

Section Crawl.

Variable netloc_of : url -> option string.
Variable net : url -> get_outcome.
Variable rp : Robots.RobotFileParser.
Variable base_url : url.
Variable max_pages : Z.
Variable max_workers : Z.

Definition with_worker (c : config) (cc : Z) (g : list url) (o : list line)
    : config :=
  Config (visited c) cc (to_visit c) (report c) (futures c) (ctl c) g o.

(** One atomic step of [process_page(url, base_url, rp, max_pages)]. *)
Definition process_page (u : url) (w : wstate) (c : config)
    : option (wstate * config) :=
  match w with
  | WGate =>
      if bool_decide (max_pages ≤ crawl_count c)
      then Some (WDone None [], c)
      else Some (WFetch, c)
  | WFetch =>
      if negb (can_fetch_url u rp) then Some (WDone (Some empty_result) [], c)
      else
        match net u with
        | GetRaises =>
            Some (WDone (Some empty_result) [],
                  with_worker c (crawl_count c) (gets c ++ [u])
                    (stdout c ++ [ErrorCrawling u]))
        | LinkCheckRaises sp =>
            Some (WDone (Some (PageResult sp [])) [],
                  with_worker c (crawl_count c) (gets c ++ [u])
                    (stdout c ++ [ErrorCrawling u]))
        | Fetched sp br anchors =>
            Some (WLinks (PageResult sp br) anchors [],
                  with_worker c (crawl_count c) (gets c ++ [u]) (stdout c))
        end
  | WLinks result (full_url :: rest) new_links =>
      match is_internal_link netloc_of base_url full_url with
      | None =>
          Some (WDone (Some result) new_links,
                with_worker c (crawl_count c) (gets c)
                  (stdout c ++ [ErrorCrawling u]))
      | Some false => Some (WLinks result rest new_links, c)
      | Some true =>
          if bool_decide (full_url ∈ visited c)
          then Some (WLinks result rest new_links, c)
          else Some (WLinks result rest (new_links ++ [full_url]), c)
      end
  | WLinks result [] new_links =>
      Some (WPrint result new_links (crawl_count c + 1),
            with_worker c (crawl_count c + 1) (gets c) (stdout c))
  | WPrint result new_links current_count =>
      Some (WDone (Some result) new_links,
            with_worker c (crawl_count c) (gets c)
              (stdout c ++ [Crawled current_count max_pages u]))
  | WDone _ _ => None
  end.

Definition outer_cond (c : config) : bool :=
  bool_decide (to_visit c ≠ []) && (crawl_count c <? max_pages).

Definition inner_cond (c : config) : bool :=
  bool_decide (to_visit c ≠ []) && (len (futures c) <? max_workers)
  && (crawl_count c <? max_pages).

Definition with_ctl (c : config) (k : pc) : config :=
  Config (visited c) (crawl_count c) (to_visit c) (report c) (futures c) k
    (gets c) (stdout c).

(** One step of the main thread of [crawl], outside the [as_completed]
    loop. *)
Definition crawl_main (c : config) : option config :=
  match ctl c with
  | Outer =>
      if outer_cond c then
        if bool_decide (max_workers ≤ 0) then Some (with_ctl c Raised)
        else Some (Config (visited c) (crawl_count c) (to_visit c) (report c)
                     [] Inner (gets c) (stdout c))
      else Some (with_ctl c Returned)
  | Inner =>
      if inner_cond c then Some (with_ctl c Pop) else Some (with_ctl c Collect)
  | Pop =>
      match to_visit c with
      | [] => None
      | u :: rest =>
          if bool_decide (u ∈ visited c) then
            Some (Config (visited c) (crawl_count c) rest (report c)
                    (futures c) Inner (gets c) (stdout c))
          else
            Some (Config ({[u]} ∪ visited c) (crawl_count c) rest (report c)
                    (futures c ++ [(u, WGate)]) Inner (gets c) (stdout c))
      end
  | Collect =>
      match futures c with
      | [] => Some (with_ctl c Outer)
      | _ :: _ => None
      end
  | Returned | Raised => None
  end.

(** One round of the [as_completed] loop, for the completed future at
    position [i]. *)
Definition crawl_collect (i : nat) (c : config) : option config :=
  match ctl c with
  | Collect =>
      match futures c !! i with
      | Some (future_url, WDone page_result new_links) =>
          match page_result with
          | Some r =>
              Some (Config (visited c) (crawl_count c)
                      (add_links (visited c) max_pages (to_visit c) new_links)
                      (<[future_url := r]> (report c))
                      (delete i (futures c)) Collect (gets c) (stdout c))
          | None =>
              Some (Config (visited c) (crawl_count c) (to_visit c) (report c)
                      (delete i (futures c)) Collect (gets c) (stdout c))
          end
      | _ => None
      end
  | _ => None
  end.

Definition crawl_worker (i : nat) (c : config) : option config :=
  match futures c !! i with
  | Some (u, w) =>
      match process_page u w c with
      | Some (w', c') =>
          Some (Config (visited c') (crawl_count c') (to_visit c') (report c')
                  (<[i := (u, w')]> (futures c')) (ctl c') (gets c') (stdout c'))
      | None => None
      end
  | None => None
  end.

Definition step_fn (l : label) (c : config) : option config :=
  match l with
  | LMain => crawl_main c
  | LCollect i => crawl_collect i c
  | LWorker i => crawl_worker i c
  end.

Definition step (c c' : config) : Prop := ∃ l, step_fn l c = Some c'.

(** [crawl(base_url, max_pages, max_workers)] entered with the globals
    [visited0] and [crawl_count0], at the first test of line 128.  Lines
    117-126 come before it: [crawl_enter] has the [ValueError] that they
    raise for a seed that [urlparse] rejects. *)
Definition crawl_start (visited0 : gset url) (crawl_count0 : Z) : config :=
  Config visited0 crawl_count0 [base_url] ∅ [] Outer [] [].

Inductive reachable (visited0 : gset url) (crawl_count0 : Z) : config -> Prop :=
| reach_start : reachable visited0 crawl_count0 (crawl_start visited0 crawl_count0)
| reach_step c c' :
    reachable visited0 crawl_count0 c -> step c c' ->
    reachable visited0 crawl_count0 c'.

(** A schedule run: the labels that are not enabled are skipped. *)
Fixpoint run (sched : list label) (c : config) : config :=
  match sched with
  | [] => c
  | l :: sched' =>
      match step_fn l c with
      | Some c' => run sched' c'
      | None => run sched' c
      end
  end.

(** Executions. *)
Inductive steps : config -> config -> Prop :=
| steps_refl c : steps c c
| steps_cons c c1 c2 : step c c1 -> steps c1 c2 -> steps c c2.

(** One pass through the body of the outer [while] loop: from a test of
    line 128 to the next one. *)
Inductive within_iteration : config -> config -> Prop :=
| iteration_enter c c' :
    ctl c = Outer -> step c c' -> within_iteration c c'
| iteration_more c c1 c2 :
    within_iteration c c1 -> ctl c1 ≠ Outer -> step c1 c2 ->
    within_iteration c c2.

Definition outer_iteration (c c' : config) : Prop :=
  within_iteration c c' ∧ ctl c' = Outer.

(** A schedule run that stops at the next test of line 128. *)
Fixpoint run_pass (sched : list label) (c : config) : option config :=
  match sched with
  | [] => None
  | l :: sched' =>
      match step_fn l c with
      | Some c' =>
          if decide (ctl c' = Outer) then Some c' else run_pass sched' c'
      | None => run_pass sched' c
      end
  end.

(** ** Termination measure *)

Definition total (f : url * wstate -> nat) (l : list (url * wstate)) : nat :=
  foldr (fun x n => (f x + n)%nat) 0%nat l.

(** How many more pages the test of line 149 can let in. *)
Definition headroom (c : config) : nat :=
  Z.to_nat (max_pages - Z.of_nat (size (visited c))).

(** A worker that may still reach line 103. *)
Definition may_count (x : url * wstate) : nat :=
  match x.2 with
  | WGate | WFetch | WLinks _ _ _ => 1
  | WPrint _ _ _ | WDone _ _ => 0
  end%nat.

Definition rank (c : config) : nat :=
  match ctl c with
  | Outer => if outer_cond c then 3 else 1
  | Inner => if inner_cond c then 2 else 5
  | Pop => 1
  | Collect => 4
  | Returned | Raised => 0
  end%nat.

Definition main_measure (c : config) : nat :=
  (9 * (2 * length (to_visit c)
        + length (futures c) * (2 * headroom c + 1)
        + headroom c * (headroom c + 1))
   + 4 * total may_count (futures c) + rank c)%nat.

(** The steps a worker has left, at most. *)
Definition worker_fuel (x : url * wstate) : nat :=
  let fetch :=
    match net x.1 with
    | Fetched _ _ anchors => length anchors + 3
    | GetRaises | LinkCheckRaises _ => 1
    end%nat in
  match x.2 with
  | WGate => S fetch
  | WFetch => fetch
  | WLinks _ todo _ => length todo + 2
  | WPrint _ _ _ => 1
  | WDone _ _ => 0
  end%nat.

Definition worker_measure (c : config) : nat := total worker_fuel (futures c).

(** A page that [process_page] answers without analysing it: robots.txt
    denies it, or its GET raises. *)
Definition quiet (u : url) : Prop :=
  can_fetch_url u rp = false ∨ net u = GetRaises.

(** A worker past line 103. *)
Definition counted (w : wstate) : Prop :=
  match w with
  | WPrint _ _ _ => True
  | WDone _ new_links => new_links ≠ []
  | _ => False
  end.

Definition printing (x : url * wstate) : nat :=
  match x.2 with WPrint _ _ _ => 1 | _ => 0 end%nat.

Definition progress_lines (c : config) : nat :=
  length (filter (fun l => is_progress l = true) (stdout c)).

(** ** One pass of the outer loop, entered with the counter at
    [count0], [frontier0] URLs to visit and [printed0] lines printed *)

(** A worker in the link loop goes through the anchors of its page. *)
Definition inv_anchors (c : config) : Prop :=
  Forall (fun x =>
    match x.2 with
    | WLinks _ todo _ =>
        ∃ sp br anchors, net x.1 = Fetched sp br anchors ∧ todo `suffix_of` anchors
    | _ => True
    end) (futures c).

(** Among the lines [o], the error line of a page that was fetched and
    has an anchor on which [is_internal_link] raises: the exception of
    line 94 ends the link loop of such a page before line 103. *)
Definition link_error (o : list line) : Prop :=
  ∃ u sp br anchors x,
    ErrorCrawling u ∈ o ∧ net u = Fetched sp br anchors
    ∧ x ∈ anchors ∧ is_internal_link netloc_of base_url x = None.

(** [printed0] is the number of lines printed when the pass began. *)
Definition pass_inv (count0 : Z) (frontier0 printed0 : nat) (c : config) : Prop :=
  (printed0 ≤ length (stdout c))%nat
  ∧ (ctl c = Returned ∨ ctl c = Raised
     ∨ link_error (drop printed0 (stdout c))
     ∨ (count0 < max_pages ∧ 0 < max_workers ∧ count0 ≤ crawl_count c
        ∧ Forall (fun x => counted x.2 -> count0 < crawl_count c) (futures c)
        ∧ (crawl_count c = count0 ->
           (length (to_visit c) ≤ frontier0)%nat
           ∧ (ctl c = Collect ∨ ctl c = Outer ->
              (length (to_visit c) < frontier0)%nat)
           ∧ (ctl c = Inner -> length (to_visit c) = frontier0 ->
              to_visit c ≠ [] ∧ len (futures c) < max_workers)))).

(** ** Invariants of a run entered with [visited0] and [crawl_count0] *)

Section Invariants.

Variable visited0 : gset url.
Variable crawl_count0 : Z.

(** The globals only grow, and what the run dispatched, requested or
    reported is what it added to [visited]. *)
Record inv_sets (c : config) : Prop := {
  sets_visited : visited0 ⊆ visited c;
  sets_count : crawl_count0 ≤ crawl_count c;
  sets_report : dom (report c) ⊆ visited c ∖ visited0;
  sets_futures : Forall (fun x => x.1 ∈ visited c ∖ visited0) (futures c);
  sets_gets : Forall (fun u => u ∈ visited c ∖ visited0) (gets c)
}.

(** The test of line 149 keeps [visited] and [to_visit] within the
    budget. *)
Definition inv_budget (c : config) : Prop :=
  Z.of_nat (size (visited c)) + len (to_visit c)
  ≤ Z.max (Z.of_nat (size visited0) + 1) max_pages.

(** The main thread pops from a non-empty list, and no worker runs
    outside the [with] block. *)
Record inv_ctl (c : config) : Prop := {
  ctl_pop : ctl c = Pop -> to_visit c ≠ [];
  ctl_idle : ctl c = Outer ∨ ctl c = Returned ∨ ctl c = Raised -> futures c = [];
  ctl_raised : 0 < max_workers -> ctl c ≠ Raised
}.

(** A worker before its GET. *)
Definition unfetched (w : wstate) : Prop :=
  match w with WGate | WFetch => True | _ => False end.

(** No URL is dispatched or requested twice. *)
Record inv_once (c : config) : Prop := {
  once_gets : NoDup (gets c);
  once_futures : NoDup (futures c).*1;
  once_fetch : Forall (fun x => unfetched x.2 -> x.1 ∉ gets c) (futures c)
}.

(** The run of a seed that [process_page] answers without analysing it
    ([quiet base_url]): every configuration it passes through.  [g] and
    [o] are what the seed's worker has requested and printed. *)
Definition seed_answer (w : wstate) (g : list url) (o : list line) : Prop :=
  (w = WGate ∧ g = [] ∧ o = [])
  ∨ (w = WFetch ∧ g = [] ∧ o = [])
  ∨ (w = WDone (Some empty_result) []
     ∧ ((can_fetch_url base_url rp = false ∧ g = [] ∧ o = [])
        ∨ (can_fetch_url base_url rp = true
           ∧ g = [base_url] ∧ o = [ErrorCrawling base_url]))).

Inductive quiet_seed_run : config -> Prop :=
| seed_queued k :
    k = Outer ∨ ((k = Inner ∨ k = Pop) ∧ crawl_count0 < max_pages ∧ 0 < max_workers)
    ∨ (k = Returned ∧ max_pages ≤ crawl_count0)
    ∨ (k = Raised ∧ max_workers ≤ 0) ->
    quiet_seed_run (Config visited0 crawl_count0 [base_url] ∅ [] k [] [])
| seed_skipped k :
    base_url ∈ visited0 ->
    k = Inner ∨ k = Collect ∨ k = Outer ∨ k = Returned ->
    quiet_seed_run (Config visited0 crawl_count0 [] ∅ [] k [] [])
| seed_dispatched k w g o :
    base_url ∉ visited0 -> crawl_count0 < max_pages ->
    k = Inner ∨ k = Collect ->
    seed_answer w g o ->
    quiet_seed_run
      (Config ({[base_url]} ∪ visited0) crawl_count0 [] ∅ [(base_url, w)] k g o)
| seed_reported k g o :
    base_url ∉ visited0 -> crawl_count0 < max_pages ->
    k = Collect ∨ k = Outer ∨ k = Returned ->
    seed_answer (WDone (Some empty_result) []) g o ->
    quiet_seed_run
      (Config ({[base_url]} ∪ visited0) crawl_count0 []
         {[base_url := empty_result]} [] k g o).

(** What [process_page] leaves of a quiet page: an empty result, no
    progress line, no increment of [crawl_count]. *)
Definition quiet_worker (w : wstate) : Prop :=
  w = WGate ∨ w = WFetch ∨ w = WDone None []
  ∨ w = WDone (Some empty_result) [].

Record inv_quiet (c : config) : Prop := {
  quiet_report :
    ∀ u r, report c !! u = Some r -> quiet u -> r = empty_result;
  quiet_futures :
    Forall (fun x => quiet x.1 -> quiet_worker x.2) (futures c);
  quiet_stdout :
    Forall (fun l => ∀ n p u, l = Crawled n p u -> ¬ quiet u) (stdout c);
  quiet_count :
    crawl_count c
    = crawl_count0 + Z.of_nat (progress_lines c)
      + Z.of_nat (total printing (futures c))
}.

End Invariants.

End Crawl.

End Crawler.

Import Crawler.

(** ** Before the loop (lines 117-126) *)

(** Line 122, [rp.set_url(urljoin(base_url, "/robots.txt"))], stands
    outside the [try] of lines 123-126.  [urljoin] returns its second
    argument at once for an empty base; otherwise it begins with
    [urlparse(base)], and the [ValueError] of [urlparse] leaves [crawl].
    Nothing else in lines 117-126 raises: the joined URL has the netloc of
    the seed or none, and the exceptions of [rp.read()] are swallowed. *)
Definition robots_url_raises (netloc_of : url -> option string)
    (base_url : url) : bool :=
  negb (String.eqb base_url "")
  && match netloc_of base_url with
     | Some _ => false
     | None => true
     end.

(** The call up to the first test of line 128; [None] is the
    [ValueError] of line 122. *)
Definition crawl_enter (netloc_of : url -> option string) (base_url : url)
    (visited0 : gset url) (crawl_count0 : Z) : option config :=
  if robots_url_raises netloc_of base_url then None
  else Some (crawl_start base_url visited0 crawl_count0).

(** ** [export_report]: the summary block (lines 202-208) *)

Definition total_pages (summary : gmap url page_result) : nat := size summary.

Definition total_spelling (summary : gmap url page_result) : nat :=
  map_fold (fun _ issues n => (size (spelling_issues issues) + n)%nat) 0%nat summary.

Definition total_broken (summary : gmap url page_result) : nat :=
  map_fold (fun _ issues n => (length (broken_links issues) + n)%nat) 0%nat summary.

Definition crawl_summary (summary : gmap url page_result) : list string :=
  [ "=== Crawl Summary ===";
    "Total Pages Crawled: " +:+ pretty (total_pages summary);
    "Total Spelling Mistakes: " +:+ pretty (total_spelling summary);
    "Total Broken Links/Images: " +:+ pretty (total_broken summary) ].

(** ** A small site, for closed examples *)

Module Example.

Definition a : url := "http://x.test/a".
Definition a_top : url := "http://x.test/a#top".
Definition b : url := "http://x.test/b".
Definition secret : url := "http://x.test/secret".
Definition other : url := "https://other.test/x".

(** Page [a] links to itself with a fragment, to [b], to [secret] and to
    another site; [a#top] is the same page; the GET of [b] raises. *)
Definition site (u : url) : get_outcome :=
  if String.eqb u a then Fetched ∅ [] [a_top; b; secret; other]
  else if String.eqb u a_top then Fetched ∅ [] [a]
  else if String.eqb u secret then Fetched ∅ [] []
  else GetRaises.

(** robots.txt was read and denies [secret]. *)
Definition rules (u : url) : option bool := Some (negb (String.eqb u secret)).
Definition robots : Robots.RobotFileParser := Robots.load (Robots.Body true rules).

(** robots.txt could not be reached. *)
Definition no_robots : Robots.RobotFileParser := Robots.load Robots.UrlopenRaises.

Definition round : list label :=
  [LMain; LWorker 0; LWorker 1; LWorker 2; LCollect 0].

Definition schedule (n : nat) : list label := concat (replicate n round).

Definition crawl (rp : Robots.RobotFileParser) (max_pages : Z)
    (visited0 : gset url) (crawl_count0 : Z) : config :=
  run Url.urlparse_netloc site rp a max_pages 3 (schedule 40)
    (crawl_start a visited0 crawl_count0).

(** The run at the moment the seed's page has been collected. *)
Definition seed_collected : config :=
  run Url.urlparse_netloc site robots a 5 3 (schedule 10) (crawl_start a ∅ 0).

(** The first pass of the outer loop. *)
Definition first_pass : option config :=
  run_pass Url.urlparse_netloc site robots a 5 3 (schedule 40) (crawl_start a ∅ 0).

(** Two calls of [crawl] in one process. *)
Definition first_call : config := crawl robots 5 ∅ 0.

Definition second_call : config :=
  crawl robots 5 (visited first_call) (crawl_count first_call).

(** The worker of [b] about to send its GET. *)
Definition at_get : config :=
  Config {[b]} 0 [] ∅ [(b, WFetch)] Collect [] [].

End Example.

(** ** Further invariants of a run *)

Module Safety.

Section Safety.

Variable netloc_of : url -> option string.
Variable rp : Robots.RobotFileParser.
Variable base_url : url.
Variable max_pages : Z.
Variable max_workers : Z.
Variable crawl_count0 : Z.

(** A URL the crawl may follow: the seed, or a link that the test of
    line 94 lets through. *)
Definition followed (u : url) : Prop :=
  u = base_url ∨ is_internal_link netloc_of base_url u = Some true.

(** [new_links] of a worker, as far as it is built. *)
Definition gathered (w : wstate) : list url :=
  match w with
  | WGate | WFetch => []
  | WLinks _ _ new_links | WPrint _ new_links _ | WDone _ new_links => new_links
  end.

Record inv_internal (c : config) : Prop := {
  internal_to_visit : Forall followed (to_visit c);
  internal_futures :
    Forall (fun x => followed x.1 ∧ Forall followed (gathered x.2)) (futures c);
  internal_report : ∀ u, is_Some (report c !! u) -> followed u;
  internal_gets : Forall followed (gets c)
}.

(** Every GET went to a URL that [can_fetch_url] allows. *)
Definition inv_polite (c : config) : Prop :=
  Forall (fun u => can_fetch_url u rp = true) (gets c).

(** A worker between the test of line 74 and the increment of line 103. *)
Definition in_flight (x : url * wstate) : nat :=
  match x.2 with
  | WFetch | WLinks _ _ _ => 1
  | WGate | WPrint _ _ _ | WDone _ _ => 0
  end%nat.

(** The futures one [with] block can hold. *)
Definition pool_size : Z := Z.max max_workers 0.

(** How far [crawl_count] can get: every worker that passed line 74 in
    time may still count its page. *)
Definition count_bound : Z := Z.max crawl_count0 (max_pages - 1 + pool_size).

Record inv_pool (c : config) : Prop := {
  pool_futures : len (futures c) ≤ pool_size;
  pool_pop : ctl c = Pop -> len (futures c) < max_workers;
  pool_count :
    crawl_count c + Z.of_nat (total in_flight (futures c)) ≤ count_bound;
  pool_stdout :
    Forall (fun l => ∀ n p u, l = Crawled n p u ->
                       p = max_pages ∧ crawl_count0 < n ≤ crawl_count c)
      (stdout c);
  pool_printing :
    Forall (fun x => ∀ r links n, x.2 = WPrint r links n ->
                       crawl_count0 < n ≤ crawl_count c)
      (futures c)
}.

(** A worker that has its page and has not counted it yet (lines 92-97). *)
Definition analysing (x : url * wstate) : nat :=
  match x.2 with
  | WLinks _ _ _ => 1
  | WGate | WFetch | WPrint _ _ _ | WDone _ _ => 0
  end%nat.

(** Line 103 counts only pages that line 81 has requested. *)
Definition inv_counted (c : config) : Prop :=
  crawl_count c + Z.of_nat (total analysing (futures c))
  ≤ crawl_count0 + len (gets c).

(** The seed on its way into the report of a call that starts with room
    in the budget: queued, dispatched alone, stored. *)
Inductive seed_phase (c : config) : Prop :=
| seed_waiting :
    to_visit c = [base_url] -> futures c = [] -> base_url ∉ visited c ->
    crawl_count c = crawl_count0 ->
    ctl c = Outer ∨ ctl c = Inner ∨ ctl c = Pop ->
    seed_phase c
| seed_running w :
    to_visit c = [] -> futures c = [(base_url, w)] ->
    (w = WGate -> crawl_count c < max_pages) ->
    (∀ links, w ≠ WDone None links) ->
    ctl c = Inner ∨ ctl c = Collect ->
    seed_phase c
| seed_stored : is_Some (report c !! base_url) -> seed_phase c.

(** Nothing that a run has recorded is taken back. *)
Record grows (c c' : config) : Prop := {
  grows_visited : visited c ⊆ visited c';
  grows_count : crawl_count c ≤ crawl_count c';
  grows_report : report c ⊆ report c';
  grows_gets : gets c `prefix_of` gets c';
  grows_stdout : stdout c `prefix_of` stdout c'
}.

End Safety.

End Safety.

(** ** The page analysis: what [process_page] does with a fetched page *)

(** *** The parse tree of BeautifulSoup *)

Module Html.

(** A [NavigableString] of the plain class, a string of another class
    (comment, doctype, the text of a [script] ...), which [get_text]
    leaves out, or a [Tag]. *)
Inductive node :=
| Text (s : string)
| Special (s : string)
| Element (name : string) (attrs : gmap string string) (children : list node).

(** What the code reads of a [Tag] that [find_all] returns. *)
Record tag := Tag {
  tag_name : string;
  tag_attrs : gmap string string
}.

(** The strings below a node, in document order ([_all_strings]). *)
Fixpoint node_strings (n : node) : list string :=
  match n with
  | Text s => [s]
  | Special _ => []
  | Element _ _ children => flat_map node_strings children
  end.

Definition all_strings (soup : list node) : list string :=
  flat_map node_strings soup.

(** [find_all(names)]: the tags with one of the names, in document
    order. *)
Fixpoint node_find_all (names : list string) (n : node) : list tag :=
  match n with
  | Text _ | Special _ => []
  | Element name attrs children =>
      ((if bool_decide (name ∈ names) then [Tag name attrs] else [])
       ++ flat_map (node_find_all names) children)%list
  end.

Definition find_all (names : list string) (soup : list node) : list tag :=
  flat_map (node_find_all names) soup.

(** The tree after [tag.extract()] for every tag that [find_all(names)]
    returns: a tag with one of the names goes with all that is below
    it. *)
Fixpoint node_extract (names : list string) (n : node) : list node :=
  match n with
  | Text _ | Special _ => [n]
  | Element name attrs children =>
      if bool_decide (name ∈ names) then []
      else [Element name attrs (flat_map (node_extract names) children)]
  end.

Definition extract (names : list string) (soup : list node) : list node :=
  flat_map (node_extract names) soup.

(** [get_text(separator)]. *)
Definition get_text (separator : string) (soup : list node) : string :=
  String.concat separator (all_strings soup).

End Html.

(** *** Strings: [str.split()] and the pattern of [check_spelling] *)

Module Text.

(** [str.isspace] on the characters below 256. *)
Definition is_space (c : ascii) : bool :=
  let n := Url.code c in
  ((9 <=? n) && (n <=? 13) || (28 <=? n) && (n <=? 32)
   || (n =? 133) || (n =? 160))%N.

(** [text.split()]: the maximal runs of characters that are not white
    space.  [word] is the run being read. *)
Fixpoint split_from (word : string) (text : string) : list string :=
  match text with
  | EmptyString => if String.eqb word "" then [] else [word]
  | String c rest =>
      if is_space c then
        if String.eqb word "" then split_from "" rest
        else word :: split_from "" rest
      else split_from (word +:+ String c "") rest
  end.

Definition split (text : string) : list string := split_from "" text.

(** [[a-zA-Z]]. *)
Definition is_letter (c : ascii) : bool := Url.is_alpha c.

(** [\w] of a [str] pattern on the characters below 256: the
    alphanumerics of [str.isalnum] and the underscore. *)
Definition is_word (c : ascii) : bool :=
  let n := Url.code c in
  is_letter c || Url.is_digit c || Ascii.eqb c "_"
  || ((n =? 170) || (n =? 178) || (n =? 179) || (n =? 181) || (n =? 185)
      || (n =? 186) || (188 <=? n) && (n <=? 190)
      || (192 <=? n) && (n <=? 214) || (216 <=? n) && (n <=? 246)
      || (248 <=? n))%N.

(** Where the scan of [re.findall(r'\b[a-zA-Z]+\b', text)] stands:
    after a character that is not a word character (or at the start),
    inside a run of letters that began at a word boundary, or inside a
    run of word characters that cannot match any more. *)
Inductive scan :=
| Boundary
| Letters (run : string)
| NoMatch.

(** The matches of [\b[a-zA-Z]+\b]: the maximal runs of letters with no
    word character on either side. *)
Fixpoint findall_from (st : scan) (text : string) : list string :=
  match text with
  | EmptyString =>
      match st with Letters run => [run] | Boundary | NoMatch => [] end
  | String c rest =>
      match st with
      | Boundary =>
          if is_letter c then findall_from (Letters (String c "")) rest
          else if is_word c then findall_from NoMatch rest
          else findall_from Boundary rest
      | Letters run =>
          if is_letter c then findall_from (Letters (run +:+ String c "")) rest
          else if is_word c then findall_from NoMatch rest
          else run :: findall_from Boundary rest
      | NoMatch =>
          if is_word c then findall_from NoMatch rest
          else findall_from Boundary rest
      end
  end.

Definition findall (text : string) : list string := findall_from Boundary text.

Fixpoint all_chars (p : ascii -> bool) (s : string) : bool :=
  match s with
  | EmptyString => true
  | String c rest => p c && all_chars p rest
  end.

(** A non-empty string of letters. *)
Definition alphabetic (s : string) : Prop :=
  s ≠ "" ∧ all_chars is_letter s = true.

(** A non-empty string without white space. *)
Definition spaceless (s : string) : Prop :=
  s ≠ "" ∧ all_chars (fun c => negb (is_space c)) s = true.

End Text.

(** *** [get_visible_text] (lines 29-33) *)

(** The names of line 30. *)
Definition hidden : list string := ["script"; "style"; "noscript"].

(** A soup, and the same soup without one of its [script], [style] or
    [noscript] elements, wherever in the tree that element is. *)
Inductive without_hidden : list Html.node -> list Html.node -> Prop :=
| hidden_here before name attrs children after :
    name ∈ hidden ->
    without_hidden (before ++ Html.Element name attrs children :: after)
      (before ++ after)
| hidden_below before name attrs children children' after :
    without_hidden children children' ->
    without_hidden (before ++ Html.Element name attrs children :: after)
      (before ++ Html.Element name attrs children' :: after).

(** The text returned, and the soup as the call leaves it: the tags of
    line 30 are taken out of the tree that [process_page] goes on to
    use. *)
Definition get_visible_text (soup : list Html.node) : string * list Html.node :=
  let soup := Html.extract hidden soup in
  let text := Html.get_text " " soup in
  (String.concat " " (Text.split text), soup).

(** *** [check_spelling] (lines 35-39) *)

(** The global [spell]: [unknown] gives the set of the words it does
    not know, [correction] its suggestion or [None]. *)
Record SpellChecker := {
  unknown : list string -> gset string;
  correction : string -> option string
}.

Definition check_spelling (spell : SpellChecker) (text : string)
    : gmap string (option string) :=
  let words := Text.findall text in
  let misspelled := unknown spell words in
  set_to_map (fun word => (word, correction spell word)) misspelled.

(** *** [check_broken_links] (lines 41-57) *)

(** [urljoin(base, url)]: the two tests it starts with; [resolve] is the
    rest of it, [None] its [ValueError]. *)
Definition urljoin (resolve : url -> url -> option url) (base u : url)
    : option url :=
  if String.eqb base "" then Some u
  else if String.eqb u "" then Some base
  else resolve base u.

(** Lines 44-45: [tag.get(attr)]. *)
Definition link_attribute (t : Html.tag) : option string :=
  let attr := if String.eqb (Html.tag_name t) "a" then "href" else "src" in
  Html.tag_attrs t !! attr.

Section Links.

Variable resolve : url -> url -> option url.

(** [requests.head(full_url, ...)]: the status code, [None] when it
    raises. *)
Variable head : url -> option Z.

(** The loop of lines 43-56 over the tags found.  [requested] are the
    URLs sent a HEAD so far; the result is [None] when [urljoin]
    raises. *)
Fixpoint check_tags (base_url : url) (tags : list Html.tag)
    (requested broken : list url) : list url * option (list url) :=
  match tags with
  | [] => (requested, Some broken)
  | t :: rest =>
      match link_attribute t with
      | None => check_tags base_url rest requested broken
      | Some u =>
          if String.eqb u "" then check_tags base_url rest requested broken
          else
            match urljoin resolve base_url u with
            | None => (requested, None)
            | Some full_url =>
                if String.prefix "javascript:" full_url
                then check_tags base_url rest requested broken
                else
                  match head full_url with
                  | Some status_code =>
                      if 400 <=? status_code
                      then check_tags base_url rest
                             (requested ++ [full_url]) (broken ++ [full_url])
                      else check_tags base_url rest
                             (requested ++ [full_url]) broken
                  | None =>
                      check_tags base_url rest
                        (requested ++ [full_url]) (broken ++ [full_url])
                  end
            end
      end
  end.

(** The HEAD requests sent, and the list returned. *)
Definition check_broken_links (soup : list Html.node) (base_url : url)
    : list url * option (list url) :=
  check_tags base_url (Html.find_all ["a"; "img"] soup) [] [].

(** A link that counts as broken: the HEAD raises or answers 400 or
    more. *)
Definition is_broken (u : url) : bool :=
  match head u with
  | Some status_code => 400 <=? status_code
  | None => true
  end.

(** [soup.find_all("a", href=True)]. *)
Definition anchors_with_href (soup : list Html.node) : list string :=
  omap (fun t => Html.tag_attrs t !! "href") (Html.find_all ["a"] soup).

(** The values [full_url] of line 93, in document order; [None] when
    [urljoin] raises. *)
Definition page_links (soup : list Html.node) (u : url) : option (list url) :=
  mapM (urljoin resolve u) (anchors_with_href soup).

End Links.

(** *** [export_report]: the text report (lines 165-208) *)

(** [summary.items()], in the order of the dict. *)
Abbreviation summary_items := (list (url * page_result)) (only parsing).

(** [f"{correction}"]. *)
Definition show_correction (correction : option string) : string :=
  match correction with
  | Some s => s
  | None => "None"
  end.

(** What a section writes when its loop has written nothing. *)
Definition or_none (lines : list string) : list string :=
  match lines with
  | [] => [" None"]
  | _ :: _ => lines
  end.

(** Lines 171-173. *)
Definition spelling_pages (summary : summary_items) : list string :=
  flat_map (fun item =>
    if bool_decide (spelling_issues item.2 = ∅) then []
    else [" - " +:+ item.1]) summary.

(** Lines 181-184.  The words of a page come in the order of
    [map_to_list]; the code writes them in the order of its dict. *)
Definition misspelled_words (summary : summary_items) : list string :=
  flat_map (fun item =>
    (fun wc => " - " +:+ wc.1 +:+ " (suggestion: "
               +:+ show_correction wc.2 +:+ ")")
    <$> map_to_list (spelling_issues item.2)) summary.

(** Lines 192-196. *)
Definition broken_pages (summary : summary_items) : list string :=
  flat_map (fun item =>
    match broken_links item.2 with
    | [] => []
    | links => (" - " +:+ item.1) :: ((fun l => "    * " +:+ l) <$> links)
    end) summary.

(** Lines 202-204. *)
Definition count_spelling (summary : summary_items) : nat :=
  sum_list ((fun item => size (spelling_issues item.2)) <$> summary).

Definition count_broken (summary : summary_items) : nat :=
  sum_list ((fun item => length (broken_links item.2)) <$> summary).

(** The text file, line by line. *)
Definition export_report (summary : summary_items) : list string :=
  ([ "=== Summary Report ==="; "";
     "Page URLs with spelling issues:" ]
   ++ or_none (spelling_pages summary)
   ++ [ ""; "Misspelled words (with suggestions):" ]
   ++ or_none (misspelled_words summary)
   ++ [ ""; "Page URLs with broken links/images:" ]
   ++ or_none (broken_pages summary)
   ++ [ ""; "=== Crawl Summary ===";
        "Total Pages Crawled: " +:+ pretty (length summary);
        "Total Spelling Mistakes: " +:+ pretty (count_spelling summary);
        "Total Broken Links/Images: " +:+ pretty (count_broken summary) ])%list.

(** ** A small page, for closed examples *)

Module ExamplePage.

(** The links of the page are absolute; one of them does not parse. *)
Definition resolve (base u : url) : option url :=
  if String.eqb u "http://[" then None else Some u.

(** The HEAD of [Example.b] raises, every other URL answers 200. *)
Definition head (u : url) : option Z :=
  if String.eqb u Example.b then None else Some 200.

Definition link (href : string) : Html.node :=
  Html.Element "a" {["href" := href]} [Html.Text "link"].

Definition page : list Html.node :=
  [ Html.Element "html" ∅
      [ Html.Element "head" ∅
          [ Html.Element "style" ∅ [Html.Special "a { color: red }"] ];
        Html.Element "body" ∅
          [ Html.Text "Helo  wrld";
            link Example.b;
            Html.Element "noscript" ∅ [ link Example.secret ];
            Html.Element "img" {["src" := "javascript:void(0)"]} [];
            Html.Element "a" ∅ [Html.Text "no target"];
            link Example.other ] ] ].

(** The same page without its [noscript] element. *)
Definition page_without_noscript : list Html.node :=
  [ Html.Element "html" ∅
      [ Html.Element "head" ∅
          [ Html.Element "style" ∅ [Html.Special "a { color: red }"] ];
        Html.Element "body" ∅
          [ Html.Text "Helo  wrld";
            link Example.b;
            Html.Element "img" {["src" := "javascript:void(0)"]} [];
            Html.Element "a" ∅ [Html.Text "no target"];
            link Example.other ] ] ].

End ExamplePage.

(** ** What a run prints and reports *)

Module Output.

(** The page of a printed line. *)
Definition line_url (l : line) : url :=
  match l with Crawled _ _ u | ErrorCrawling u => u end.

(** The counter value that a progress line shows. *)
Definition line_counter (l : line) : option Z :=
  match l with Crawled n _ _ => Some n | ErrorCrawling _ => None end.

Definition counters (o : list line) : list Z := omap line_counter o.

(** The counter value that a worker has read at line 104 and not printed
    yet. *)
Definition held (x : url * wstate) : option Z :=
  match x.2 with
  | WPrint _ _ current_count => Some current_count
  | WGate | WFetch | WLinks _ _ _ | WDone _ _ => None
  end.

(** A worker past line 81, or one that returns a finding. *)
Definition holds_page (w : wstate) : Prop :=
  match w with
  | WGate | WFetch => False
  | WLinks _ _ _ | WPrint _ _ _ => True
  | WDone ret _ => ∃ r, ret = Some r ∧ r ≠ empty_result
  end.

(** A finding is never invented: a result that is not empty belongs to
    a page that was requested, and so does every line printed. *)
Record inv_requested (c : config) : Prop := {
  requested_report :
    ∀ u r, report c !! u = Some r -> r ≠ empty_result -> u ∈ gets c;
  requested_futures :
    Forall (fun x => holds_page x.2 -> x.1 ∈ gets c) (futures c);
  requested_stdout : Forall (fun l => line_url l ∈ gets c) (stdout c)
}.

(** No counter value is read twice. *)
Definition inv_numbered (c : config) : Prop :=
  NoDup (counters (stdout c) ++ omap held (futures c)).

End Output.

(** * Properties *)

(** ** Lists of futures *)

Lemma total_app f l1 l2 : total f (l1 ++ l2) = (total f l1 + total f l2)%nat.
Proof. unfold total. induction l1 as [|x l1 IH]; simpl; [done | rewrite IH; lia]. Qed.

Lemma total_delete f l i x :
  l !! i = Some x -> total f l = (f x + total f (delete i l))%nat.
Proof.
  revert i. induction l as [|y l IH]; intros [|i] H; simplify_eq/=; [done |].
  change (foldr _ _ l) with (total f l). rewrite (IH i H).
  change (foldr _ _ (delete i l)) with (total f (delete i l)). lia.
Qed.

Lemma total_insert f l i x y :
  l !! i = Some x ->
  (total f (<[i := y]> l) + f x = total f l + f y)%nat.
Proof.
  revert i. induction l as [|z l IH]; intros [|i] H; simplify_eq/=; [lia |].
  change (foldr _ _ l) with (total f l).
  change (foldr _ _ (<[i := y]> l)) with (total f (<[i := y]> l)).
  specialize (IH i H). lia.
Qed.

(** ** Lines 148-150 *)

Lemma add_links_bound V P tv links B :
  P ≤ B -> Z.of_nat (size V) + len tv ≤ B ->
  Z.of_nat (size V) + len (add_links V P tv links) ≤ B.
Proof.
  intros HP. revert tv. induction links as [|l links IH]; intros tv H; simpl; [done |].
  destruct (bool_decide (l ∉ V) && _) eqn:E; [| by apply IH].
  apply IH. apply andb_prop in E as [_ E]. apply Z.ltb_lt in E.
  unfold len in *. rewrite length_app. simpl. lia.
Qed.

Lemma add_links_length V P tv links :
  (length tv ≤ length (add_links V P tv links)
   ∧ length (add_links V P tv links)
     ≤ Nat.max (length tv) (Z.to_nat (P - Z.of_nat (size V))))%nat.
Proof.
  revert tv. induction links as [|l links IH]; intros tv; simpl; [lia |].
  destruct (bool_decide (l ∉ V) && _) eqn:E; [| by apply IH].
  apply andb_prop in E as [_ E]. apply Z.ltb_lt in E.
  specialize (IH (tv ++ [l])%list). rewrite length_app in IH. simpl in IH.
  unfold len in E. lia.
Qed.

Lemma add_links_nil V P tv : add_links V P tv [] = tv.
Proof. done. Qed.

Lemma add_links_elem V P tv links u :
  u ∈ add_links V P tv links -> u ∈ tv ∨ (u ∈ links ∧ u ∉ V).
Proof.
  revert tv. induction links as [|l links IH]; intros tv H; simpl in H; [by left |].
  destruct (bool_decide (l ∉ V) && _) eqn:E.
  - apply andb_prop in E as [E _]. apply bool_decide_eq_true in E.
    apply IH in H as [H | [H ?]]; [| right; split; [by right | done]].
    apply elem_of_app in H as [H | H]; [by left |].
    apply list_elem_of_singleton in H as ->. right. split; [by left | done].
  - apply IH in H as [H | [H ?]]; [by left |]. right. split; [by right | done].
Qed.

Section CrawlFacts.

Variable netloc_of : url -> option string.
Variable net : url -> get_outcome.
Variable rp : Robots.RobotFileParser.
Variable base_url : url.
Variable max_pages : Z.
Variable max_workers : Z.

Local Abbreviation process_page := (process_page netloc_of net rp base_url max_pages).
Local Abbreviation crawl_main := (crawl_main max_pages max_workers).
Local Abbreviation crawl_collect := (crawl_collect max_pages).
Local Abbreviation crawl_worker := (crawl_worker netloc_of net rp base_url max_pages).
Local Abbreviation step_fn := (step_fn netloc_of net rp base_url max_pages max_workers).
Local Abbreviation step := (step netloc_of net rp base_url max_pages max_workers).
Local Abbreviation steps := (steps netloc_of net rp base_url max_pages max_workers).
Local Abbreviation reachable := (reachable netloc_of net rp base_url max_pages max_workers).
Local Abbreviation run := (run netloc_of net rp base_url max_pages max_workers).
Local Abbreviation crawl_start := (crawl_start base_url).
Local Abbreviation quiet := (quiet net rp).

(** ** What one step changes *)

Lemma process_page_frame u w c w' c' :
  process_page u w c = Some (w', c') ->
  visited c' = visited c ∧ to_visit c' = to_visit c ∧ report c' = report c
  ∧ futures c' = futures c ∧ ctl c' = ctl c
  ∧ crawl_count c ≤ crawl_count c' ≤ crawl_count c + 1.
Proof.
  unfold process_page. intros H.
  repeat case_match; simplify_eq; simpl; repeat split; lia.
Qed.

Ltac bools :=
  repeat match goal with
  | H : bool_decide _ = true |- _ => apply bool_decide_eq_true in H
  | H : bool_decide _ = false |- _ => apply bool_decide_eq_false in H
  | H : _ && _ = true |- _ => apply andb_prop in H as [? ?]
  | H : negb _ = true |- _ => apply negb_true_iff in H
  | H : negb _ = false |- _ => apply negb_false_iff in H
  | H : (_ <? _) = true |- _ => apply Z.ltb_lt in H
  | H : (_ <? _) = false |- _ => apply Z.ltb_ge in H
  | H : _ && _ = false |- _ => apply andb_false_iff in H as [H | H]
  end.

Ltac step_cases H :=
  destruct H as [[|?i|?i] H]; simpl in H;
  [ unfold Crawler.crawl_main in H
  | unfold Crawler.crawl_collect in H
  | unfold Crawler.crawl_worker, Crawler.process_page in H ];
  repeat case_match; simplify_eq;
  unfold with_ctl, with_worker, outer_cond, inner_cond in *; simpl in *;
  simplify_eq; bools.

Lemma len_cons {A} (x : A) l : len (x :: l) = 1 + len l.
Proof. unfold len. simpl length. lia. Qed.

Lemma len_nonneg {A} (l : list A) : 0 ≤ len l.
Proof. unfold len. lia. Qed.

Section Run.

Variable visited0 : gset url.
Variable crawl_count0 : Z.

Lemma inv_sets_step c c' :
  Crawler.inv_sets visited0 crawl_count0 c -> step c c' ->
  Crawler.inv_sets visited0 crawl_count0 c'.
Proof.
  intros [Hv Hc Hr Hf Hg] H. destruct c as [V cc tv rep fs k g o]. simpl in *.
  step_cases H.
  all: try match goal with
    | H : _ !! _ = Some _, Hf : Forall _ _ |- _ => pose proof (Forall_lookup_1 _ _ _ _ Hf H) as Hin; simpl in Hin
    end.
  all: constructor; simpl; try done; try lia.
  all: try (apply Forall_insert; done).
  all: try (apply Forall_delete; done).
  all: try (apply Forall_app_2; [done | by apply Forall_singleton]).
  all: try (rewrite dom_insert_L; set_solver).
  all: try match goal with
    | H : bool_decide (_ ∈ _) = false |- _ => apply bool_decide_eq_false in H
    end.
  all: try (eapply Forall_impl; [eassumption | set_solver]).
  all: try set_solver.
  apply Forall_app_2; [eapply Forall_impl; [eassumption | set_solver] |].
  apply Forall_singleton. set_solver.
Qed.

Lemma inv_budget_step c c' :
  Crawler.inv_budget max_pages visited0 c -> step c c' ->
  Crawler.inv_budget max_pages visited0 c'.
Proof.
  unfold Crawler.inv_budget. intros Hb H.
  destruct c as [V cc tv rep fs k g o]. simpl in *.
  step_cases H; try done.
  - rewrite len_cons in Hb. lia.
  - rewrite size_union, size_singleton by set_solver.
    rewrite len_cons in Hb. lia.
  - apply add_links_bound; [lia | done].
Qed.




Lemma inv_ctl_step c c' :
  Crawler.inv_ctl max_workers c -> step c c' -> Crawler.inv_ctl max_workers c'.
Proof.
  intros [Hp Hi Hr] H. destruct c as [V cc tv rep fs k g o]. simpl in *.
  step_cases H.
  all: try (constructor; simpl; try done; naive_solver lia; fail).
  all: exfalso.
  all: try match goal with
    | H : _ !! _ = Some _ |- _ => rewrite Hi in H by auto; done
    end.
Qed.

Lemma futures_fst_insert (fs : list (url * wstate)) i u w w' :
  fs !! i = Some (u, w) -> (<[i := (u, w')]> fs).*1 = fs.*1.
Proof.
  intros H. rewrite list_fmap_insert. apply list_insert_id.
  by rewrite list_lookup_fmap, H.
Qed.

Lemma futures_other (fs : list (url * wstate)) i j u w x :
  NoDup fs.*1 -> fs !! i = Some (u, w) -> fs !! j = Some x -> j ≠ i -> x.1 ≠ u.
Proof.
  intros Hn Hi Hj Hne Heq. apply Hne. destruct x as [u' w0]. simpl in Heq. subst u'.
  apply (NoDup_lookup _ _ _ u Hn); rewrite list_lookup_fmap; [by rewrite Hj | by rewrite Hi].
Qed.

Lemma once_insert (fs : list (url * wstate)) (g g' : list url) i u w w' :
  NoDup fs.*1 -> fs !! i = Some (u, w) ->
  Forall (fun x => unfetched x.2 -> x.1 ∉ g) fs ->
  (∀ v, v ∈ g' -> v ∈ g ∨ v = u) ->
  (unfetched w' -> u ∉ g') ->
  Forall (fun x => unfetched x.2 -> x.1 ∉ g') (<[i := (u, w')]> fs).
Proof.
  intros Hn Hi Hu Hg Hw. apply Forall_lookup. intros j x Hj.
  apply list_lookup_insert_Some in Hj as [(-> & <- & _) | [Hne Hj]]; [done |].
  intros Hx Hin. apply Hg in Hin as [Hin | Heq].
  - by apply (proj1 (Forall_lookup _ _) Hu j x Hj Hx).
  - by apply (futures_other fs i j u w x Hn Hi Hj (not_eq_sym Hne)).
Qed.

Lemma inv_once_step c c' :
  Crawler.inv_sets visited0 crawl_count0 c ->
  inv_once c -> step c c' -> inv_once c'.
Proof.
  intros [Hv Hc Hr Hf Hg] [Hn Hm Hu] H. destruct c as [V cc tv rep fs k g o]. simpl in *.
  step_cases H.
  all: try (constructor; simpl; done).
  all: try match goal with
    | H : _ !! _ = Some _ |- _ =>
        pose proof (Forall_lookup_1 _ _ _ _ Hf H) as Hin;
        pose proof (Forall_lookup_1 _ _ _ _ Hu H) as Hun; simpl in Hin, Hun
    end.
  all: constructor; simpl; try done.
  all: try (erewrite futures_fst_insert by eassumption; done).
  all: try (eapply once_insert; [done | done | done | set_solver | set_solver]).
  all: try constructor.
  all: try (apply Forall_delete; done).
  all: try (rewrite list_fmap_delete; apply (sublist_NoDup _ (fs.*1)); [done | apply sublist_delete]).
  all: try (apply NoDup_app; split_and!; [done | | apply NoDup_singleton];
            intros x Hx ->%list_elem_of_singleton; by apply Hun).
  - rewrite fmap_app. apply NoDup_app. split_and!; [done | | apply NoDup_singleton].
    intros x Hx Hs. apply list_elem_of_singleton in Hs. simpl in Hs. subst x.
    apply list_elem_of_fmap in Hx as [[u w] [Hu' Hx]]. simpl in Hu'. subst u.
    apply (proj1 (Forall_forall _ _) Hf) in Hx. set_solver.
  - apply Forall_app_2; [done |]. apply Forall_singleton. intros _ Hs.
    apply (proj1 (Forall_forall _ _) Hg) in Hs. set_solver.
Qed.

Local Abbreviation inv_sets := (Crawler.inv_sets visited0 crawl_count0).
Local Abbreviation inv_budget := (Crawler.inv_budget max_pages visited0).
Local Abbreviation inv_ctl := (Crawler.inv_ctl max_workers).
Local Abbreviation reached := (reachable visited0 crawl_count0).

Lemma reachable_inv c :
  reached c -> inv_sets c ∧ inv_budget c ∧ inv_ctl c ∧ inv_once c.
Proof.
  induction 1 as [|c c' _ (Hs & Hb & Hc & Ho) Hstep].
  - split_and!.
    + constructor; simpl; [done | lia | set_solver | constructor | constructor].
    + unfold inv_budget. simpl. rewrite len_cons. unfold len. simpl. lia.
    + constructor; simpl; [done | done | done].
    + constructor; simpl; constructor.
  - split_and!; eauto using inv_sets_step, inv_budget_step, inv_ctl_step, inv_once_step.
Qed.

Lemma steps_trans c1 c2 c3 : steps c1 c2 -> steps c2 c3 -> steps c1 c3.
Proof. induction 1; [done | intros; econstructor; eauto]. Qed.

Lemma steps_run sched c : steps c (run sched c).
Proof.
  revert c. induction sched as [|l sched IH]; intros c; simpl; [constructor |].
  destruct (step_fn l c) as [c'|] eqn:E; [| apply IH].
  econstructor; [by exists l | apply IH].
Qed.

Lemma reachable_steps c c' : reached c -> steps c c' -> reached c'.
Proof. intros Hc Hs. induction Hs; [done |]. apply IHHs. by econstructor. Qed.

Lemma reachable_run sched : reached (run sched (crawl_start visited0 crawl_count0)).
Proof. eapply reachable_steps; [constructor | apply steps_run]. Qed.

Lemma report_size c :
  inv_sets c -> inv_budget c ->
  Z.of_nat (size (report c))
  ≤ Z.max 1 (max_pages - Z.of_nat (size visited0)).
Proof.
  intros [Hv _ Hr _ _] Hb. unfold inv_budget in Hb.
  rewrite <- size_dom. pose proof (subseteq_size _ _ Hr) as Hle.
  rewrite size_difference in Hle by done.
  pose proof (subseteq_size _ _ Hv). pose proof (len_nonneg (to_visit c)). lia.
Qed.

(** ** The measure decreases *)

Ltac fields :=
  cbn [visited crawl_count to_visit report futures ctl gets stdout] in *.

Local Abbreviation rank := (Crawler.rank max_pages max_workers).
Local Abbreviation main_measure := (Crawler.main_measure max_pages max_workers).
Local Abbreviation worker_measure := (Crawler.worker_measure net).
Local Abbreviation worker_fuel := (Crawler.worker_fuel net).
Local Abbreviation headroom := (Crawler.headroom max_pages).

Lemma rank_le c : (rank c ≤ 5)%nat.
Proof. unfold rank. repeat case_match; lia. Qed.

Lemma rank_count c c' :
  ctl c' = ctl c -> to_visit c' = to_visit c ->
  length (futures c') = length (futures c) ->
  crawl_count c ≤ crawl_count c' ->
  (rank c' ≤ rank c + 3)%nat.
Proof.
  intros Hk Ht Hf Hc. unfold rank, outer_cond, inner_cond, len.
  rewrite Hk, Ht, Hf. destruct (ctl c); try lia.
  - destruct (bool_decide (to_visit c ≠ [])); simpl; [| lia].
    destruct (crawl_count c <? max_pages) eqn:E1, (crawl_count c' <? max_pages) eqn:E2; lia.
  - destruct (bool_decide (to_visit c ≠ [])); simpl; [| lia].
    destruct (Z.of_nat (length (futures c)) <? max_workers); simpl; [| lia].
    destruct (crawl_count c <? max_pages) eqn:E1, (crawl_count c' <? max_pages) eqn:E2; lia.
Qed.

Lemma rank_same c c' :
  ctl c' = ctl c -> to_visit c' = to_visit c ->
  length (futures c') = length (futures c) ->
  crawl_count c' = crawl_count c ->
  rank c' = rank c.
Proof.
  intros Hk Ht Hf Hc. unfold rank, outer_cond, inner_cond, len.
  by rewrite Hk, Ht, Hf, Hc.
Qed.

Lemma process_page_fuel u w c w' c1 :
  process_page u w c = Some (w', c1) ->
  (crawl_count c1 = crawl_count c
   ∧ (may_count (u, w') ≤ may_count (u, w))%nat
   ∧ ((may_count (u, w') < may_count (u, w))%nat
      ∨ (worker_fuel (u, w') < worker_fuel (u, w))%nat))
  ∨ (crawl_count c1 = crawl_count c + 1
     ∧ may_count (u, w) = 1%nat ∧ may_count (u, w') = 0%nat).
Proof.
  unfold process_page, Crawler.worker_fuel, may_count. simpl. intros H.
  destruct (net u) eqn:En;
  repeat case_match; simplify_eq; simpl in *; simplify_eq; simpl;
    try (left; split_and!; [done | lia | lia]);
    try (right; split_and!; [done | lia | lia]).
Qed.

Lemma worker_decreases i c c' :
  crawl_worker i c = Some c' ->
  (main_measure c' < main_measure c)%nat
  ∨ (main_measure c' ≤ main_measure c ∧ worker_measure c' < worker_measure c)%nat.
Proof.
  unfold Crawler.crawl_worker. intros H.
  destruct (futures c !! i) as [[u w]|] eqn:Hi; [| done].
  destruct (process_page u w c) as [[w' c1]|] eqn:Hp; [| done].
  simplify_eq.
  pose proof (process_page_frame _ _ _ _ _ Hp) as (Hv & Ht & Hr & Hf & Hk & Hc).
  pose proof (process_page_fuel _ _ _ _ _ Hp) as Hfuel.
  pose proof (total_insert may_count _ _ _ (u, w') Hi) as Hm.
  pose proof (total_insert worker_fuel _ _ _ (u, w') Hi) as Hw.
  unfold Crawler.main_measure, Crawler.worker_measure, Crawler.headroom. fields.
  rewrite Hv, Ht, Hf, length_insert.
  set (c2 := Config _ _ _ _ _ _ _ _).
  destruct Hfuel as [(Hcc & Hle & Hlt) | (Hcc & H1 & H0)].
  - assert (rank c2 = rank c) as ->.
    { apply rank_same; subst c2; simpl; try done. by rewrite length_insert. }
    destruct Hlt; [left | right]; lia.
  - assert (rank c2 ≤ rank c + 3)%nat.
    { apply rank_count; subst c2; simpl; try done; [by rewrite length_insert | lia]. }
    left. lia.
Qed.

Lemma main_decreases c c' :
  crawl_main c = Some c' -> (main_measure c' < main_measure c)%nat.
Proof.
  destruct c as [V cc tv rep fs k g o].
  unfold Crawler.crawl_main. fields. intros H.
  repeat case_match; simplify_eq;
    unfold Crawler.main_measure, Crawler.rank, Crawler.headroom, with_ctl; fields;
    repeat match goal with H : _ = _ |- _ => rewrite H end; try lia.
  - assert (inner_cond max_pages max_workers
              (Config V cc tv rep [] Inner g o) = true) as ->.
    { unfold outer_cond, inner_cond in *. fields. bools.
      rewrite bool_decide_eq_true_2 by done. simpl.
      apply andb_true_intro. split; [apply Z.ltb_lt; unfold len; simpl; lia | by apply Z.ltb_lt]. }
    change (length (@nil (url * wstate))) with 0%nat.
    change (total may_count []) with 0%nat. nia.
  - change (length (s :: l)) with (S (length l)). destruct (inner_cond _ _ _); lia.
  - bools. rewrite size_union, size_singleton by set_solver.
    rewrite length_app, total_app.
    change (length [(s, WGate)]) with 1%nat.
    change (total may_count [(s, WGate)]) with 1%nat.
    change (length (s :: l)) with (S (length l)).
    set (d := Z.to_nat (max_pages - Z.of_nat (size V))).
    assert (Z.to_nat (max_pages - Z.of_nat (1 + size V)) = d - 1)%nat as -> by lia.
    destruct (inner_cond _ _ _); destruct d; nia.
  - destruct (outer_cond _ _); lia.
Qed.

Lemma collect_decreases i c c' :
  crawl_collect i c = Some c' -> (main_measure c' < main_measure c)%nat.
Proof.
  destruct c as [V cc tv rep fs k g o].
  unfold Crawler.crawl_collect. fields. intros H.
  repeat case_match; simplify_eq;
    unfold Crawler.main_measure, Crawler.rank, Crawler.headroom; fields.
  all: match goal with H : ?l !! ?j = Some ?x |- _ =>
         pose proof (total_delete may_count _ _ _ H) as Hm;
         change (may_count x) with 0%nat in Hm;
         pose proof (length_delete l j (ex_intro _ x H)) as Hl;
         pose proof (lookup_lt_Some _ _ _ H) as Hlt
       end.
  all: rewrite Hl, Hm; destruct (length fs) as [|U]; [lia |].
  all: replace (S U - 1)%nat with U by lia.
  - pose proof (add_links_length V max_pages tv new_links) as [_ Ha].
    set (d := Z.to_nat (max_pages - Z.of_nat (size V))) in *. nia.
  - nia.
Qed.

Lemma step_decreases c c' :
  step c c' ->
  (main_measure c' < main_measure c)%nat
  ∨ (main_measure c' ≤ main_measure c ∧ worker_measure c' < worker_measure c)%nat.
Proof.
  intros [[|i|i] H]; simpl in H;
    eauto using main_decreases, collect_decreases, worker_decreases.
Qed.

(** Every execution is finite. *)
Lemma step_wf c : Acc (fun c2 c1 => step c1 c2) c.
Proof.
  remember (main_measure c) as n eqn:Hn. revert c Hn.
  induction n as [n IHn] using lt_wf_ind. intros c Hn.
  remember (worker_measure c) as m eqn:Hm. revert c Hn Hm.
  induction m as [m IHm] using lt_wf_ind. intros c Hn Hm.
  constructor. intros c' Hstep.
  destruct (step_decreases _ _ Hstep) as [Hlt | [Hle Hlt]].
  - eapply IHn; [| reflexivity]. lia.
  - destruct (decide (main_measure c' = n)) as [Heq | Hne].
    + eapply IHm; [| done | reflexivity]. lia.
    + eapply IHn; [| reflexivity]. lia.
Qed.

(** ** No deadlock, and the run returns *)

Lemma process_page_enabled u w c :
  (∀ r l, w ≠ WDone r l) -> is_Some (process_page u w c).
Proof.
  intros Hw. unfold process_page.
  destruct w; repeat case_match; try done; by exfalso; eapply Hw.
Qed.

Lemma progress c :
  inv_ctl c -> ctl c ≠ Returned -> ctl c ≠ Raised -> ∃ c', step c c'.
Proof.
  intros [Hp _ _] Hr Hx.
  destruct (ctl c) eqn:Hk; try done.
  - destruct (crawl_main c) as [c'|] eqn:E; [by exists c', LMain |].
    unfold Crawler.crawl_main in E. rewrite Hk in E. by repeat case_match.
  - destruct (crawl_main c) as [c'|] eqn:E; [by exists c', LMain |].
    unfold Crawler.crawl_main in E. rewrite Hk in E. by repeat case_match.
  - destruct (crawl_main c) as [c'|] eqn:E; [by exists c', LMain |].
    unfold Crawler.crawl_main in E. rewrite Hk in E.
    destruct (to_visit c) eqn:Ht; [by destruct Hp | by repeat case_match].
  - destruct (futures c) as [|[u w] fs] eqn:Hf.
    + exists (with_ctl c Outer), LMain. simpl. unfold Crawler.crawl_main.
      by rewrite Hk, Hf.
    + assert (Hw : (∃ r l, w = WDone r l) ∨ (∀ r l, w ≠ WDone r l))
        by (destruct w; eauto).
      destruct Hw as [(r & l & ->) | Hn].
      * destruct (crawl_collect 0 c) as [c'|] eqn:E; [by exists c', (LCollect 0) |].
        unfold Crawler.crawl_collect in E. rewrite Hk, Hf in E. simpl in E.
        by destruct r.
      * destruct (process_page_enabled u w c) as [[w' c1] E]; [done |].
        eexists. exists (LWorker 0). simpl. unfold Crawler.crawl_worker.
        rewrite Hf. simpl. by rewrite E.
Qed.

Lemma crawl_returns c :
  0 < max_workers -> reached c -> ∃ c', steps c c' ∧ ctl c' = Returned.
Proof.
  intros HW. induction (step_wf c) as [c _ IH]. intros Hc.
  destruct (decide (ctl c = Returned)) as [|Hr]; [exists c; split; [constructor | done] |].
  pose proof (reachable_inv c Hc) as (_ & _ & Hctl & _).
  destruct (progress c Hctl Hr) as [c' Hstep]; [by apply Hctl |].
  destruct (IH c' Hstep) as (c2 & Hs & Hk); [by econstructor |].
  exists c2. split; [by econstructor | done].
Qed.

(** ** Runs that never analyse a page *)

Lemma exhausted_run c :
  max_pages ≤ crawl_count0 -> reached c ->
  c = crawl_start visited0 crawl_count0
  ∨ c = with_ctl (crawl_start visited0 crawl_count0) Returned.
Proof.
  intros HP. induction 1 as [|c c' _ IH Hstep]; [by left |].
  right. destruct IH as [-> | ->]; unfold Crawler.crawl_start in *;
    step_cases Hstep; try done; lia.
Qed.

Local Abbreviation quiet_seed_run :=
  (Crawler.quiet_seed_run rp base_url max_pages max_workers visited0 crawl_count0).

Ltac seed_case :=
  first
    [ by (apply seed_queued; naive_solver lia)
    | by (apply seed_skipped; naive_solver)
    | by (unfold seed_answer in *; destruct_or?; destruct_and?; simplify_eq/=;
          eapply seed_dispatched; unfold seed_answer; naive_solver)
    | by (unfold seed_answer in *; destruct_or?; destruct_and?; simplify_eq/=;
          eapply seed_reported; unfold seed_answer; naive_solver)
    | by (exfalso; unfold seed_answer, len in *; simpl in *; naive_solver lia)
    | by (exfalso; unfold seed_answer in *; destruct_or?; destruct_and?; congruence) ].

Lemma quiet_seed_reachable c :
  quiet base_url -> reached c -> quiet_seed_run c.
Proof.
  intros Hq. induction 1 as [|c c' _ IH Hstep].
  { apply seed_queued. by left. }
  destruct IH as [k Hk | k Hin Hk | k w g o Hn HP Hk Hw | k g o Hn HP Hk Hw].
  - step_cases Hstep; seed_case.
  - step_cases Hstep; seed_case.
  - step_cases Hstep; try seed_case.
    all: match goal with
         | H : [_] !! ?i = Some _ |- _ => destruct i; simplify_eq/=
         end.
    all: rewrite ?insert_empty; unfold Crawler.quiet in *; try seed_case.
  - step_cases Hstep; seed_case.
Qed.

(** ** Each pass of the outer loop makes progress *)

Section Pass.

Local Abbreviation outer_iteration :=
  (Crawler.outer_iteration netloc_of net rp base_url max_pages max_workers).
Local Abbreviation pass_inv :=
  (Crawler.pass_inv netloc_of net base_url max_pages max_workers).
Local Abbreviation link_error := (Crawler.link_error netloc_of net base_url).
Local Abbreviation inv_anchors := (Crawler.inv_anchors net).

Lemma inv_anchors_step c c' : inv_anchors c -> step c c' -> inv_anchors c'.
Proof.
  unfold Crawler.inv_anchors. intros Hf H.
  destruct c as [V cc tv rep fs k g o]. simpl in *.
  step_cases H.
  all: try match goal with
    | H : _ !! _ = Some _ |- _ =>
        pose proof (Forall_lookup_1 _ _ _ _ Hf H) as Hin; simpl in Hin
    end.
  all: try done.
  all: try (apply Forall_delete; done).
  all: try (apply Forall_app_2; [done | by apply Forall_singleton]).
  all: try (apply Forall_insert; [done |]; simpl; done).
  all: try (apply Forall_insert; [done |]; simpl; by eexists _, _, _).
  all: apply Forall_insert; [done |]; simpl;
    destruct Hin as (sp & br & anchors & Hn & Hs);
    exists sp, br, anchors; split; [done |];
    etrans; [| exact Hs]; by apply suffix_cons_r.
Qed.

Lemma reachable_anchors c : reached c -> inv_anchors c.
Proof.
  induction 1 as [|c c' _ IH Hstep]; [constructor | by eapply inv_anchors_step].
Qed.

Lemma link_error_drop_snoc n o l :
  link_error (drop n o) -> link_error (drop n (o ++ [l])).
Proof.
  rewrite drop_app. intros (u & sp & br & anchors & x & Hin & ?).
  exists u, sp, br, anchors, x. split; [| done]. apply elem_of_app. by left.
Qed.

Lemma pass_inv_enter c c' :
  ctl c = Outer -> futures c = [] -> step c c' ->
  pass_inv (crawl_count c) (length (to_visit c)) (length (stdout c)) c'.
Proof.
  intros Hk Hf H. destruct c as [V cc tv rep fs k g o]. simpl in *. subst.
  unfold Crawler.pass_inv.
  step_cases H; fields; (split; [done |]); try by auto.
  do 3 right. split_and!; try done; try lia.
  intros _. split_and!; [done | naive_solver | intros _ _; split; [done | unfold len; simpl; lia]].
Qed.

Lemma pass_inv_step count0 frontier0 printed0 c c' :
  inv_anchors c ->
  pass_inv count0 frontier0 printed0 c -> ctl c ≠ Outer -> step c c' ->
  pass_inv count0 frontier0 printed0 c'.
Proof.
  intros Ha [Hlen Hi] Hk H. destruct c as [V cc tv rep fs k g o].
  unfold Crawler.pass_inv, Crawler.inv_anchors in *. fields.
  destruct Hi as [-> | [-> | [He | (HP & HW & Hc & Hf & Ht)]]].
  - step_cases H; fields; (split; [rewrite ?length_app; simpl; lia | auto]).
  - step_cases H; fields; (split; [rewrite ?length_app; simpl; lia | auto]).
  - step_cases H; fields; (split; [rewrite ?length_app; simpl; lia |]);
      do 2 right; left; try done; by apply link_error_drop_snoc.
  - step_cases H; fields; (split; [rewrite ?length_app; simpl; lia |]); try done.
    all: try match goal with
         | H : _ !! _ = Some _ |- _ =>
             pose proof (Forall_lookup_1 _ _ _ _ Hf H) as Hcnt; simpl in Hcnt;
             pose proof (Forall_lookup_1 _ _ _ _ Ha H) as Hanc; simpl in Hanc
         end.
    all: try match goal with
         | H : is_internal_link _ _ _ = None |- _ =>
             do 2 right; left;
             destruct Hanc as (sp & br & anchors & Hn & Hs);
             eexists _, sp, br, anchors, _; split_and!; [| exact Hn | | exact H];
             [ rewrite drop_app; apply elem_of_app; right;
               replace (printed0 - length o)%nat with 0%nat by lia; by left
             | destruct Hs as [pre ->]; apply elem_of_app; right; by left ]
         end.
    all: do 3 right; split_and!; try done; try lia.
    all: try (intros Hcc; try lia; destruct (Ht Hcc) as (Hle & Hlt & Hin);
              clear Ht Hf Ha; simpl length in *;
              split_and!; [ try lia | intros [?|?]; try done; try lia | intros ? ?; try done; try lia ];
              try (pose proof (Hlt (or_introl eq_refl)); lia);
              try (unfold len in *; rewrite ?length_insert; by apply Hin);
              try (destruct (decide (length tv = frontier0)) as [He|He]; [| lia];
                   destruct (Hin eq_refl He); unfold len in *; done || lia);
              fail).
    all: try (apply Forall_delete; done).
    all: try (apply Forall_app_2; [done | apply Forall_singleton; intros []]).
    all: try (apply Forall_insert; [done |]; simpl; try done;
              try (intros _; by apply Hcnt); eauto; fail).
    all: try (unfold len in *; rewrite length_insert; exact Ht).
    all: try (unfold len in *; rewrite length_insert; intros Hcc; lia).
    all: try (destruct new_links as [|x new_links];
              [| intros Hcc; exfalso; assert (count0 < cc) by (by apply Hcnt); lia];
              rewrite add_links_nil; intros Hcc;
              destruct (Ht Hcc) as (Hle & Hlt & Hin);
              split_and!; [done | done | by intros ?]).
    all: try (apply Forall_insert;
              [eapply Forall_impl; [exact Hf |]; simpl; intros ? Hx;
               intros Hy; specialize (Hx Hy); lia
              | simpl; intros _; lia]).
Qed.

(** From one test of line 128 to the next, [to_visit] has shrunk or
    [crawl_count] has grown, unless the link loop of a page raised
    meanwhile. *)
Lemma pass_progress c c' :
  reached c -> futures c = [] -> outer_iteration c c' ->
  (length (to_visit c') < length (to_visit c))%nat
  ∨ crawl_count c < crawl_count c'
  ∨ link_error (drop (length (stdout c)) (stdout c')).
Proof.
  intros Hc Hf [Hw Hk].
  assert (reached c'
          ∧ pass_inv (crawl_count c) (length (to_visit c)) (length (stdout c)) c')
    as [_ [_ Hi]].
  { clear Hk. induction Hw as [c c' Hk Hs | c c1 c2 _ IH Hk Hs].
    - split; [by econstructor | by apply pass_inv_enter].
    - destruct (IH Hc Hf) as [Hc1 Hi1].
      split; [by econstructor |].
      eapply pass_inv_step; eauto using reachable_anchors. }
  destruct Hi as [Hi | [Hi | [Hi | (_ & _ & Hc' & _ & Ht)]]];
    [congruence | congruence | by right; right |].
  destruct (decide (crawl_count c' = crawl_count c)) as [He | Hne]; [| right; left; lia].
  left. destruct (Ht He) as (_ & Hlt & _). apply Hlt. by right.
Qed.

End Pass.

(** ** Quiet pages *)

Local Abbreviation inv_quiet := (Crawler.inv_quiet net rp crawl_count0).

Lemma progress_snoc (o : list line) l :
  length (filter (fun l => is_progress l = true) (o ++ [l])%list)
  = (length (filter (fun l => is_progress l = true) o)
     + (if is_progress l then 1 else 0))%nat.
Proof. rewrite filter_app, length_app. f_equal. destruct l; reflexivity. Qed.

Lemma inv_quiet_step c c' :
  inv_ctl c -> inv_quiet c -> step c c' -> inv_quiet c'.
Proof.
  intros [_ Hidle _] [Hr Hf Ho Hc] H. destruct c as [V cc tv rep fs k g o].
  unfold progress_lines in *. fields.
  step_cases H.
  all: try (constructor; fields; done).
  all: try match goal with
       | H : _ !! _ = Some ?x |- _ =>
           pose proof (Forall_lookup_1 _ _ _ _ Hf H) as Hq; simpl in Hq;
           pose proof (total_delete printing _ _ _ H) as Hd;
           pose proof (fun y => total_insert printing _ _ _ y H) as Hi;
           try change (printing x) with 0%nat in *;
           try change (printing x) with 1%nat in *
       end.
  all: constructor; unfold progress_lines; fields; try done.
  all: try (rewrite Hidle by auto; done).
  all: try (apply Forall_app_2; [done |]; apply Forall_singleton; intros _; by left).
  all: try (rewrite total_app; change (total printing [(s, WGate)]) with 0%nat; lia).
  all: try (apply Forall_delete; done).
  all: try (rewrite Hd; lia).
  all: try (intros u r [[<- <-] | [_ Hl]]%lookup_insert_Some Hu; [| by eapply Hr];
            destruct (Hq Hu) as [? | [? | [? | ?]]]; by simplify_eq).
  all: try (apply Forall_insert; [done |]; intros Hu; specialize (Hq Hu);
            unfold quiet_worker in *; unfold Crawler.quiet in Hu;
            destruct_or?; simplify_eq; auto; congruence).
  all: try match goal with
       | |- context [total printing (<[_ := ?y]> _)] =>
           pose proof (Hi y) as Hy;
           try change (printing y) with 0%nat in Hy;
           try change (printing y) with 1%nat in Hy;
           rewrite ?progress_snoc; simpl; lia
       end.
  all: try (apply Forall_app_2; [done |]; apply Forall_singleton; intros ? ? ? [=]).
  all: try (apply Forall_insert; [done |]; simpl; intros Hu; exfalso;
            unfold Crawler.quiet in Hu; destruct Hu; congruence).
  all: try (subst; intros Hu; destruct (Hq Hu) as [? | [? | [? | ?]]]; done).
Qed.

Lemma reachable_quiet c : reached c -> inv_quiet c.
Proof.
  induction 1 as [|c c' Hc IH Hstep].
  - constructor; unfold progress_lines; simpl; [done | constructor | constructor | lia].
  - eapply inv_quiet_step; [| done | done]. by apply reachable_inv.
Qed.

Lemma quiet_seed_report c :
  quiet base_url -> reached c ->
  (report c = ∅ ∨ report c = {[base_url := empty_result]})
  ∧ crawl_count c = crawl_count0
  ∧ progress_lines c = 0%nat
  ∧ (can_fetch_url base_url rp = false -> gets c = [])
  ∧ (ctl c = Returned -> base_url ∉ visited0 -> crawl_count0 < max_pages ->
     report c = {[base_url := empty_result]}).
Proof.
  intros Hq Hc.
  destruct (quiet_seed_reachable c Hq Hc)
    as [k Hk | k Hin Hk | k w g o Hn HP Hk Hw | k g o Hn HP Hk Hw];
    unfold progress_lines, seed_answer in *; fields.
  - split_and!; auto. intros ->. naive_solver lia.
  - split_and!; auto. by intros.
  - repeat first [destruct_or! | destruct_and!]; simplify_eq;
      split_and!; auto; try done; try congruence.
  - repeat first [destruct_or! | destruct_and!]; simplify_eq;
      split_and!; auto; try done; try congruence.
Qed.

(** A seed that an earlier run has visited is popped and dropped. *)
Lemma seen_seed_run c :
  base_url ∈ visited0 -> reached c ->
  visited c = visited0 ∧ report c = ∅ ∧ futures c = [] ∧ gets c = []
  ∧ (to_visit c = [base_url] ∨ to_visit c = []).
Proof.
  intros Hin. induction 1 as [|c c' _ (Hv & Hr & Hf & Hg & Ht) Hstep].
  - split_and!; auto.
  - destruct c as [V cc tv rep fs k g o]. simpl in *. subst.
    step_cases Hstep; split_and!; auto;
      destruct Ht as [Ht | Ht]; simplify_eq; auto; done.
Qed.

(** A future in flight is not yet a key of the report. *)
Lemma futures_unreported c :
  reached c -> Forall (fun x => report c !! x.1 = None) (futures c).
Proof.
  induction 1 as [|c c' Hc IH Hstep]; [constructor |].
  pose proof (reachable_inv c Hc) as ([_ _ Hr _ _] & _ & _ & [_ Hn _]).
  destruct c as [V cc tv rep fs k g o]. simpl in *.
  step_cases Hstep; try done.
  all: try (apply Forall_app_2; [done |]; apply Forall_singleton; simpl;
            apply not_elem_of_dom; set_solver).
  all: try (by apply Forall_delete).
  all: try (apply Forall_insert; [done |];
            match goal with
            | H : _ !! _ = Some _ |- _ => exact (Forall_lookup_1 _ _ _ _ IH H)
            end).
  apply Forall_lookup. intros j x Hj.
  assert (∃ j', fs !! j' = Some x ∧ j' ≠ i) as (j' & Hj' & Hne).
  { destruct (decide (j < i)%nat).
    - exists j. rewrite list_lookup_delete_lt in Hj by done. split; [done | lia].
    - exists (S j). rewrite list_lookup_delete_ge in Hj by lia. split; [done | lia]. }
  rewrite lookup_insert_ne.
  - by apply (proj1 (Forall_lookup _ _) IH j').
  - intros Heq. by eapply (futures_other fs i j').
Qed.

(** ** The claims about a run *)

(** C1 -- budget bound.  In a crawl with a positive [max_pages], entered
    with any value of the globals, the report map never holds more than
    [max_pages] entries: at no intermediate configuration and not at
    return. *)
Theorem report_within_budget c :
  0 < max_pages -> reachable visited0 crawl_count0 c -> Z.of_nat (size (report c)) ≤ max_pages.
Proof.
  intros HP Hc. destruct (reachable_inv c Hc) as (Hs & Hb & _).
  pose proof (report_size c Hs Hb). lia.
Qed.

(** C2, as amended -- what [visited] contains.  At every point of a
    crawl the keys of the report, the URLs handed to workers and the URLs
    requested are members of [visited].  A URL enters [visited] when it is
    popped from [to_visit] for dispatch, and a link is appended to
    [to_visit] only while it is not in [visited]. *)
Theorem dispatched_are_visited c :
  reachable visited0 crawl_count0 c ->
  (∀ u, u ∈ dom (report c) -> u ∈ visited c)
  ∧ (∀ u w, (u, w) ∈ futures c -> u ∈ visited c)
  ∧ (∀ u, u ∈ gets c -> u ∈ visited c)
  ∧ (∀ u rest c', ctl c = Pop -> to_visit c = u :: rest ->
       crawl_main c = Some c' -> u ∈ visited c' ∧ to_visit c' = rest)
  ∧ (∀ i c' x, crawl_collect i c = Some c' -> x ∈ to_visit c' ->
       x ∈ to_visit c ∨ x ∉ visited c').
Proof.
  intros Hc. destruct (reachable_inv c Hc) as ([Hv _ Hr Hf Hg] & _).
  split_and!.
  - set_solver.
  - intros u w Hin. apply (proj1 (Forall_forall _ _) Hf) in Hin. set_solver.
  - intros u Hin. apply (proj1 (Forall_forall _ _) Hg) in Hin. set_solver.
  - intros u rest c' Hk Ht. unfold Crawler.crawl_main. rewrite Hk, Ht.
    case_bool_decide; intros [= <-]; simpl; split; set_solver.
  - intros i c' x. unfold Crawler.crawl_collect.
    intros H Hx. repeat case_match; simplify_eq; simpl in *; auto.
    apply add_links_elem in Hx. tauto.
Qed.

(** C6, as amended -- the identity of a crawl target is the URL string
    itself, fragment included.  No URL string is requested twice in a run
    and no two futures of a batch carry the same URL string; a URL that
    has been requested belongs to no worker that has yet to request. *)
Theorem dispatch_once c :
  reachable visited0 crawl_count0 c ->
  NoDup (gets c) ∧ NoDup (futures c).*1
  ∧ (∀ u w, (u, w) ∈ futures c -> u ∈ gets c -> ¬ unfetched w).
Proof.
  intros Hc. destruct (reachable_inv c Hc) as (_ & _ & _ & [Hn Hm Hu]).
  split; [done | split; [done |]].
  intros u w Hin Hg Hw.
  by apply (proj1 (Forall_forall _ _) Hu (u, w) Hin Hw).
Qed.


(** A page that robots.txt denies, or whose GET raises, leaves
    [process_page] with the empty result and is stored in the report by
    the [as_completed] loop; [crawl_count] moves only with the progress
    lines, and no progress line names such a page. *)
Lemma quiet_pages_run c :
  reachable visited0 crawl_count0 c ->
  (∀ u i, quiet u -> futures c !! i = Some (u, WFetch) ->
     ∃ c', crawl_worker i c = Some c'
       ∧ futures c' !! i = Some (u, WDone (Some empty_result) [])
       ∧ crawl_count c' = crawl_count c
       ∧ progress_lines c' = progress_lines c)
  ∧ (∀ u i links, ctl c = Collect ->
       futures c !! i = Some (u, WDone (Some empty_result) links) ->
       ∃ c', crawl_collect i c = Some c'
         ∧ report c' !! u = Some empty_result
         ∧ total_pages (report c') = S (total_pages (report c)))
  ∧ (∀ u r, quiet u -> report c !! u = Some r -> r = empty_result)
  ∧ (∀ n p u, Crawled n p u ∈ stdout c -> ¬ quiet u)
  ∧ crawl_count c
    = crawl_count0 + Z.of_nat (progress_lines c)
      + Z.of_nat (total printing (futures c)).
Proof.
  intros Hc. destruct (reachable_quiet c Hc) as [Hr Hf Ho Hcnt].
  pose proof (futures_unreported c Hc) as Hfresh.
  split_and!.
  - intros u i Hq Hi. unfold Crawler.crawl_worker, Crawler.process_page.
    rewrite Hi. pose proof (lookup_lt_Some _ _ _ Hi).
    destruct (can_fetch_url u rp) eqn:Hcf; simpl.
    + destruct Hq as [Hq | Hq]; [congruence |]. rewrite Hq.
      eexists. split; [reflexivity |]. unfold progress_lines. simpl.
      rewrite list_lookup_insert_eq by done. rewrite progress_snoc. simpl.
      split_and!; [done | done | lia].
    + eexists. split; [reflexivity |]. unfold progress_lines. simpl.
      by rewrite list_lookup_insert_eq by done.
  - intros u i links Hk Hi. unfold Crawler.crawl_collect. rewrite Hk, Hi.
    eexists. split; [reflexivity |]. simpl. split; [apply lookup_insert_eq |].
    unfold total_pages. apply map_size_insert_None.
    exact (Forall_lookup_1 _ _ _ _ Hfresh Hi).
  - intros u r Hq Hl. by eapply Hr.
  - intros n p u Hin. by eapply (proj1 (Forall_forall _ _) Ho).
  - done.
Qed.

Lemma run_pass_more sched c0 c c' :
  within_iteration netloc_of net rp base_url max_pages max_workers c0 c ->
  ctl c ≠ Outer ->
  run_pass netloc_of net rp base_url max_pages max_workers sched c = Some c' ->
  outer_iteration netloc_of net rp base_url max_pages max_workers c0 c'.
Proof.
  revert c. induction sched as [|l sched IH]; intros c Hw Hk H; simpl in H; [done |].
  destruct (step_fn l c) as [c1|] eqn:E; [| by eapply IH].
  assert (within_iteration netloc_of net rp base_url max_pages max_workers c0 c1)
    by (eapply iteration_more; [done | done | by exists l]).
  destruct (decide (ctl c1 = Outer)); [by simplify_eq | by eapply IH].
Qed.

Lemma run_pass_sound sched c c' :
  ctl c = Outer ->
  run_pass netloc_of net rp base_url max_pages max_workers sched c = Some c' ->
  outer_iteration netloc_of net rp base_url max_pages max_workers c c'.
Proof.
  induction sched as [|l sched IH]; intros Hk H; simpl in H; [done |].
  destruct (step_fn l c) as [c1|] eqn:E; [| by apply IH].
  assert (within_iteration netloc_of net rp base_url max_pages max_workers c c1)
    by (apply iteration_enter; [done | by exists l]).
  destruct (decide (ctl c1 = Outer)); [by simplify_eq | by eapply run_pass_more].
Qed.

Lemma within_iteration_outer c c' :
  within_iteration netloc_of net rp base_url max_pages max_workers c c' ->
  ctl c = Outer.
Proof. by induction 1. Qed.


End Run.

(** C10 -- the globals persist.  [crawl] starts from whatever [visited]
    and [crawl_count] the process holds.  A second call, entered with the
    globals the first one left, keeps them and only adds to them; it
    neither requests nor reports a URL the first call visited; and it
    returns an empty report when the first call's counter had reached
    [max_pages], and also when the first call had visited the seed. *)
Theorem second_crawl_skips visited0 crawl_count0 c1 c2 :
  reachable visited0 crawl_count0 c1 ->
  reachable (visited c1) (crawl_count c1) c2 ->
  visited c1 ⊆ visited c2 ∧ crawl_count c1 ≤ crawl_count c2
  ∧ (∀ u, u ∈ visited c1 -> report c2 !! u = None ∧ u ∉ gets c2)
  ∧ (max_pages ≤ crawl_count c1 -> report c2 = ∅ ∧ gets c2 = [])
  ∧ (base_url ∈ visited c1 -> report c2 = ∅ ∧ gets c2 = []).
Proof.
  intros _ H2.
  destruct (reachable_inv _ _ c2 H2) as ([Hv Hc Hr _ Hg] & _).
  split_and!; try done.
  - intros u Hu. split.
    + apply not_elem_of_dom. set_solver.
    + intros Hin. apply (proj1 (Forall_forall _ _) Hg) in Hin. set_solver.
  - intros HP. by destruct (exhausted_run _ _ c2 HP H2) as [-> | ->].
  - intros Hin. by destruct (seen_seed_run _ _ c2 Hin H2) as (_ & ? & _ & ? & _).
Qed.

End CrawlFacts.

(** * Claims about particular inputs *)

(** C8 -- [max_pages = 0].  Entered with a counter that is not negative,
    [crawl] finds the test of line 128 false: it dispatches no worker,
    requests no page and returns the empty report. *)
Theorem max_pages_zero netloc_of net rp base_url max_workers visited0 crawl_count0 c :
  0 ≤ crawl_count0 ->
  reachable netloc_of net rp base_url 0 max_workers visited0 crawl_count0 c ->
  report c = ∅ ∧ gets c = [] ∧ futures c = []
  ∧ ∃ c', steps netloc_of net rp base_url 0 max_workers c c'
      ∧ ctl c' = Returned ∧ report c' = ∅ ∧ gets c' = [].
Proof.
  intros H0 Hc.
  destruct (exhausted_run _ _ _ _ _ _ _ _ c H0 Hc) as [-> | ->];
    (split; [done | split; [done | split; [done |]]]).
  - exists (with_ctl (crawl_start base_url visited0 crawl_count0) Returned).
    split; [| done]. econstructor; [| constructor].
    exists LMain. simpl. unfold crawl_main, outer_cond. simpl.
    by rewrite (proj2 (Z.ltb_ge _ _) H0).
  - eexists. split; [constructor | done].
Qed.

(** C4 -- what the code does when robots.txt cannot be loaded.  After a
    [read] that raised, [can_fetch_url] denies every URL; a crawl then
    requests no page and reports at most the seed, with an empty result.
    On the example site the report is the seed alone, where the same site
    with a robots.txt answered by 404 yields four pages. *)
Theorem unreachable_robots_denies_all :
  (∀ u, can_fetch_url u (Robots.load Robots.UrlopenRaises) = false)
  ∧ (∀ rules u, can_fetch_url u (Robots.load (Robots.Body false rules)) = false)
  ∧ (∀ netloc_of net base_url max_pages max_workers visited0 crawl_count0 c,
       reachable netloc_of net (Robots.load Robots.UrlopenRaises) base_url
         max_pages max_workers visited0 crawl_count0 c ->
       gets c = []
       ∧ (report c = ∅ ∨ report c = {[base_url := empty_result]}))
  ∧ ctl (Example.crawl Example.no_robots 5 ∅ 0) = Returned
  ∧ report (Example.crawl Example.no_robots 5 ∅ 0)
    = {[Example.a := empty_result]}
  ∧ gets (Example.crawl Example.no_robots 5 ∅ 0) = []
  ∧ size (report (Example.crawl (Robots.load (Robots.HTTPError 404)) 5 ∅ 0))
    = 4%nat.
Proof.
  split_and!; try (vm_compute; reflexivity).
  intros netloc_of net base_url max_pages max_workers visited0 crawl_count0 c Hc.
  assert (quiet net (Robots.load Robots.UrlopenRaises) base_url) as Hq
      by (by left).
    destruct (quiet_seed_report _ _ _ _ _ _ _ _ c Hq Hc)
      as (Hrep & _ & _ & Hg & _).
    split; [by apply Hg | done].
Qed.


(** ** The internal-link test *)

Lemma no_authority_netloc u :
  Url.has_authority u = false -> Url.urlparse_netloc u = Some "".
Proof.
  unfold Url.has_authority, Url.urlparse_netloc.
  destruct (Url.strip_scheme _) as [|c1 [|c2 rest]]; try done.
  - by destruct c1 as [[] [] [] [] [] [] [] []].
  - destruct c1 as [[] [] [] [] [] [] [] []]; try done.
    by destruct c2 as [[] [] [] [] [] [] [] []].
Qed.

(** C5, as amended -- [is_internal_link] compares the netloc strings
    that [urlparse] extracts with [==]: it answers true exactly when the
    link's netloc is empty or is the very netloc of the base URL (same
    case, same port and user information, no subdomain matching); it
    raises exactly when [urlparse] raises on one of the two; and a link
    without an authority part, well-formed or not, is internal. *)
Theorem is_internal_link_exact base_url link :
  (is_internal_link Url.urlparse_netloc base_url link = Some true
   ↔ ∃ parsed_base parsed_link,
       Url.urlparse_netloc base_url = Some parsed_base
       ∧ Url.urlparse_netloc link = Some parsed_link
       ∧ (parsed_link = "" ∨ parsed_link = parsed_base))
  ∧ (is_internal_link Url.urlparse_netloc base_url link = None
     ↔ Url.urlparse_netloc base_url = None ∨ Url.urlparse_netloc link = None)
  ∧ (Url.urlparse_netloc base_url ≠ None ∧ Url.has_authority link = false
     -> is_internal_link Url.urlparse_netloc base_url link = Some true).
Proof.
  unfold is_internal_link. split_and!.
  - split.
    + destruct (Url.urlparse_netloc base_url) as [nb|]; [| done].
      destruct (Url.urlparse_netloc link) as [nl|]; [| done].
      intros [= H]. exists nb, nl. split_and!; [done | done |].
      apply orb_prop in H as [H | H]; apply String.eqb_eq in H; auto.
    + intros (nb & nl & -> & -> & H). f_equal.
      destruct H as [-> | ->]; [done |].
      rewrite String.eqb_refl. apply orb_true_r.
  - destruct (Url.urlparse_netloc base_url), (Url.urlparse_netloc link);
      naive_solver.
  - intros [Hb Hl]. rewrite (no_authority_netloc link Hl).
    by destruct (Url.urlparse_netloc base_url).
Qed.

(** C5, refuted as stated: two hosts that differ only in case are not
    internal to one another, a string that is no URL is internal, and an
    unbalanced bracket raises. *)
Lemma is_internal_link_case_sensitive :
  Url.urlparse_netloc "http://Example.com/" = Some "Example.com"
  ∧ Url.urlparse_netloc "http://example.com/a" = Some "example.com"
  ∧ Url.lower "example.com" = Url.lower "Example.com"
  ∧ is_internal_spec Url.urlparse_netloc
      "http://Example.com/" "http://example.com/a" = true
  ∧ is_internal_link Url.urlparse_netloc
      "http://Example.com/" "http://example.com/a" = Some false
  ∧ is_internal_link Url.urlparse_netloc
      "http://example.com/" "not a url" = Some true
  ∧ is_internal_link Url.urlparse_netloc
      "http://example.com/" "http://[::1/x" = None.
Proof. by vm_compute. Qed.


(** ** The example site *)

(** C2, refuted as stated: the seed is in [to_visit] before it is in
    [visited], and so are the links found on the seed's page. *)
Lemma frontier_not_visited :
  reachable Url.urlparse_netloc Example.site Example.robots Example.a 5 3 ∅ 0
    (crawl_start Example.a ∅ 0)
  ∧ (Example.a ∈ to_visit (crawl_start Example.a ∅ 0))
  ∧ (Example.a ∉ visited (crawl_start Example.a ∅ 0))
  ∧ reachable Url.urlparse_netloc Example.site Example.robots Example.a 5 3 ∅ 0
      Example.seed_collected
  ∧ to_visit Example.seed_collected
    = [Example.a_top; Example.b; Example.secret]
  ∧ visited Example.seed_collected = {[Example.a]}.
Proof.
  split_and!.
  - constructor.
  - by left.
  - set_solver.
  - apply reachable_run.
  - by vm_compute.
  - by vm_compute.
Qed.

(** C6, refuted as stated: [a] and [a#top] differ only in their
    fragment, and the crawl requests both and keys both in the report. *)
Lemma fragment_urls_both_crawled :
  Url.strip_fragment Example.a_top = Url.strip_fragment Example.a
  ∧ Example.a_top ≠ Example.a
  ∧ reachable Url.urlparse_netloc Example.site Example.robots Example.a 5 3 ∅ 0
      Example.first_call
  ∧ ctl Example.first_call = Returned
  ∧ is_Some (report Example.first_call !! Example.a)
  ∧ is_Some (report Example.first_call !! Example.a_top)
  ∧ gets Example.first_call = [Example.a; Example.a_top; Example.b].
Proof.
  split_and!; try (by vm_compute); try (vm_compute; eauto; fail).
  apply reachable_run.
Qed.


(** ** Instances on the example site *)

Lemma report_within_budget_example :
  Z.of_nat (size (report (Example.crawl Example.robots 2 ∅ 0))) ≤ 2.
Proof.
  apply (report_within_budget Url.urlparse_netloc Example.site Example.robots
           Example.a 2 3 ∅ 0); [lia | apply reachable_run].
Defined.

Lemma dispatched_are_visited_example :
  (∀ u, u ∈ dom (report Example.seed_collected) ->
        u ∈ visited Example.seed_collected)
  ∧ (∀ u, u ∈ gets Example.seed_collected -> u ∈ visited Example.seed_collected).
Proof.
  destruct (dispatched_are_visited Url.urlparse_netloc Example.site Example.robots
              Example.a 5 3 ∅ 0 Example.seed_collected (reachable_run _ _ _ _ _ _ _ _ _))
    as (Hr & _ & Hg & _).
  split; assumption.
Defined.


Lemma dispatch_once_example :
  NoDup (gets Example.first_call) ∧ NoDup (futures Example.first_call).*1.
Proof.
  destruct (dispatch_once Url.urlparse_netloc Example.site Example.robots
              Example.a 5 3 ∅ 0 Example.first_call (reachable_run _ _ _ _ _ _ _ _ _))
    as (Hg & Hf & _).
  split; assumption.
Defined.


Lemma max_pages_zero_example :
  report (crawl_start Example.a ∅ 0) = ∅
  ∧ gets (crawl_start Example.a ∅ 0) = [].
Proof.
  destruct (max_pages_zero Url.urlparse_netloc Example.site Example.robots
              Example.a 3 ∅ 0 (crawl_start Example.a ∅ 0))
    as (Hr & Hg & _); [lia | constructor |].
  split; assumption.
Defined.

Lemma second_crawl_example :
  visited Example.first_call ⊆ visited Example.second_call
  ∧ crawl_count Example.first_call ≤ crawl_count Example.second_call
  ∧ report Example.second_call = ∅
  ∧ gets Example.second_call = [].
Proof.
  destruct (second_crawl_skips Url.urlparse_netloc Example.site Example.robots
              Example.a 5 3 ∅ 0 Example.first_call Example.second_call
              (reachable_run _ _ _ _ _ _ _ _ _) (reachable_run _ _ _ _ _ _ _ _ _))
    as (Hv & Hc & _ & _ & Hs).
  destruct Hs as [Hr Hg]; [vm_compute; reflexivity |].
  split_and!; assumption.
Defined.

(** The two calls on the example site: the first reports four pages, the
    second none. *)
Lemma two_calls_differ :
  size (report Example.first_call) = 4%nat
  ∧ report Example.second_call = ∅
  ∧ ctl Example.second_call = Returned.
Proof. by vm_compute. Qed.


(** * Further properties of a run *)

Section SafetyFacts.

Variable netloc_of : url -> option string.
Variable net : url -> get_outcome.
Variable rp : Robots.RobotFileParser.
Variable base_url : url.
Variable max_pages : Z.
Variable max_workers : Z.
Variable visited0 : gset url.
Variable crawl_count0 : Z.

Local Abbreviation step := (step netloc_of net rp base_url max_pages max_workers).
Local Abbreviation steps := (steps netloc_of net rp base_url max_pages max_workers).
Local Abbreviation reachable := (reachable netloc_of net rp base_url max_pages max_workers).
Local Abbreviation crawl_start := (crawl_start base_url).
Local Abbreviation followed := (Safety.followed netloc_of base_url).
Local Abbreviation inv_internal := (Safety.inv_internal netloc_of base_url).
Local Abbreviation inv_polite := (Safety.inv_polite rp).
Local Abbreviation inv_pool := (Safety.inv_pool max_pages max_workers crawl_count0).
Local Abbreviation pool_size := (Safety.pool_size max_workers).
Local Abbreviation count_bound := (Safety.count_bound max_pages max_workers crawl_count0).
Local Abbreviation seed_phase := (Safety.seed_phase base_url max_pages crawl_count0).

Ltac bools :=
  repeat match goal with
  | H : bool_decide _ = true |- _ => apply bool_decide_eq_true in H
  | H : bool_decide _ = false |- _ => apply bool_decide_eq_false in H
  | H : _ && _ = true |- _ => apply andb_prop in H as [? ?]
  | H : negb _ = true |- _ => apply negb_true_iff in H
  | H : negb _ = false |- _ => apply negb_false_iff in H
  | H : (_ <? _) = true |- _ => apply Z.ltb_lt in H
  | H : (_ <? _) = false |- _ => apply Z.ltb_ge in H
  | H : _ && _ = false |- _ => apply andb_false_iff in H as [H | H]
  end.

Ltac step_cases H :=
  destruct H as [[|?i|?i] H]; simpl in H;
  [ unfold Crawler.crawl_main in H
  | unfold Crawler.crawl_collect in H
  | unfold Crawler.crawl_worker, Crawler.process_page in H ];
  repeat case_match; simplify_eq;
  unfold with_ctl, with_worker, outer_cond, inner_cond in *; simpl in *;
  simplify_eq; bools.

Ltac at_worker :=
  try match goal with
  | H : _ !! _ = Some _, Hf : Forall _ _ |- _ =>
      pose proof (Forall_lookup_1 _ _ _ _ Hf H) as Hin; simpl in Hin
  end.

Lemma add_links_Forall (P : url -> Prop) V n tv links :
  Forall P tv -> Forall P links -> Forall P (add_links V n tv links).
Proof.
  rewrite !Forall_forall. intros Ht Hl u Hu.
  apply add_links_elem in Hu as [Hu | [Hu _]]; auto.
Qed.

Lemma inv_internal_step c c' : inv_internal c -> step c c' -> inv_internal c'.
Proof.
  intros [Ht Hf Hr Hg] H. destruct c as [V cc tv rep fs k g o]. simpl in *.
  step_cases H; at_worker.
  all: constructor; simpl; try done.
  all: try (by inversion Ht).
  all: try (apply Forall_delete; done).
  all: try (apply Forall_insert; [done |]; simpl; naive_solver).
  all: try (apply Forall_app_2; [done | apply Forall_singleton; naive_solver]).
  all: try (apply add_links_Forall; naive_solver).
  all: try (intros u; rewrite lookup_insert_is_Some; naive_solver).
  all: try (apply Forall_insert; [done |]; simpl; split; [naive_solver |];
            apply Forall_app_2; [naive_solver | apply Forall_singleton; by right]).
  all: try (apply Forall_app_2; [done |]; apply Forall_singleton; simpl;
            inversion Ht; naive_solver).
Qed.

Lemma reachable_internal c : reachable visited0 crawl_count0 c -> inv_internal c.
Proof.
  induction 1 as [|c c' _ IH Hstep]; [| by eapply inv_internal_step].
  constructor; simpl; [| constructor | | constructor].
  - apply Forall_singleton. by left.
  - intros u [? Hu]. by rewrite lookup_empty in Hu.
Qed.

Lemma reachable_polite c : reachable visited0 crawl_count0 c -> inv_polite c.
Proof.
  unfold Safety.inv_polite.
  induction 1 as [|c c' _ IH Hstep]; [constructor |].
  destruct c as [V cc tv rep fs k g o]. simpl in *.
  step_cases Hstep; try done.
  all: apply Forall_app_2; [done | by apply Forall_singleton].
Qed.

Lemma total_le_length f (l : list (url * wstate)) :
  (∀ x, f x ≤ 1)%nat -> (total f l ≤ length l)%nat.
Proof.
  intros Hf. induction l as [|x l IH]; simpl; [lia |].
  change (foldr _ _ l) with (total f l). specialize (Hf x). lia.
Qed.

Lemma in_flight_le x : (Safety.in_flight x ≤ 1)%nat.
Proof. unfold Safety.in_flight. by repeat case_match; lia. Qed.

(** A worker still at the gate leaves room for one more in flight. *)
Lemma in_flight_room (fs : list (url * wstate)) i x :
  fs !! i = Some x -> Safety.in_flight x = 0%nat ->
  Z.of_nat (total Safety.in_flight fs) + 1 ≤ len fs.
Proof.
  intros Hi Hx. rewrite (total_delete _ _ _ _ Hi), Hx.
  pose proof (total_le_length Safety.in_flight (delete i fs) in_flight_le) as Hle.
  rewrite length_delete in Hle by (by eexists).
  apply lookup_lt_Some in Hi. unfold len. lia.
Qed.

Lemma inv_pool_step c c' :
  crawl_count0 ≤ crawl_count c -> inv_pool c -> step c c' -> inv_pool c'.
Proof.
  intros H0 [Hf Hp Hc Ho Hw] H. unfold Safety.count_bound, Safety.pool_size in *. destruct c as [V cc tv rep fs k g o].
  cbn [visited crawl_count to_visit report futures ctl gets stdout] in *.
  step_cases H.
  all: try match goal with
    | H : ?l !! ?i = Some ?x |- context [<[?i := ?y]> ?l] =>
        pose proof (total_insert Safety.in_flight l i x y H) as Hti;
        pose proof (in_flight_room l i x H) as Hroom
    end.
  all: try match goal with
    | H : ?l !! ?i = Some ?x |- context [delete ?i ?l] =>
        pose proof (total_delete Safety.in_flight l i x H) as Htd;
        pose proof (lookup_lt_Some _ _ _ H) as Hlt
    end.
  all: try match goal with
    | H : ?l !! ?i = Some ?x |- _ =>
        pose proof (Forall_lookup_1 _ _ _ _ Hw H) as Hwi; simpl in Hwi
    end.
  all: try (specialize (Hp eq_refl)).
  all: try cbn [Safety.in_flight snd] in Hti.
  all: try cbn [Safety.in_flight snd] in Htd.
  all: try cbn [Safety.in_flight snd] in Hroom.
  all: constructor; unfold Safety.count_bound, Safety.pool_size;
    cbn [visited crawl_count to_visit report futures ctl gets stdout].
  all: unfold len in *; rewrite ?length_insert, ?length_app, ?total_app; simpl length;
    try (unfold total at 2; cbn [foldr Safety.in_flight snd]).
  all: try rewrite length_delete by (by eexists).
  all: try done.
  all: try (simpl; lia).
  all: try (apply Forall_delete; done).
  all: try (apply Forall_insert; [done |]; simpl; intros; simplify_eq; lia).
  all: try (apply Forall_app_2; [done |]; apply Forall_singleton; intros; simplify_eq).
  all: try (eapply Forall_impl; [eassumption |]; simpl; intros ? Hx ????; 
            edestruct Hx; [done |]; lia).
  all: try (eapply Forall_impl; [eassumption |]; simpl; intros ? Hx ????; 
            edestruct Hx; [done |]; split; [done | lia]).
  all: try (split; [done |]; eapply Hwi; done).
  all: try (apply Forall_insert; [| simpl; intros; simplify_eq; lia]).
  all: try (eapply Forall_impl; [eassumption |]; simpl; intros ? Hx ????; 
            edestruct Hx; [done |]; lia).
Qed.

Lemma inv_counted_step c c' :
  Safety.inv_counted crawl_count0 c -> step c c' -> Safety.inv_counted crawl_count0 c'.
Proof.
  unfold Safety.inv_counted. intros Hc H. destruct c as [V cc tv rep fs k g o].
  cbn [visited crawl_count to_visit report futures ctl gets stdout] in *.
  step_cases H.
  all: try match goal with
    | H : ?l !! ?i = Some ?x |- context [<[?i := ?y]> ?l] =>
        pose proof (total_insert Safety.analysing l i x y H) as Hti;
        cbn [Safety.analysing snd] in Hti
    end.
  all: try match goal with
    | H : ?l !! ?i = Some ?x |- context [delete ?i ?l] =>
        pose proof (total_delete Safety.analysing l i x H) as Htd;
        cbn [Safety.analysing snd] in Htd
    end.
  all: unfold len in *; rewrite ?length_app, ?total_app; simpl length;
    try (unfold total at 2; cbn [foldr Safety.analysing snd]).
  all: try done.
  all: try (simpl; lia).
Qed.

Lemma reachable_pool c :
  reachable visited0 crawl_count0 c ->
  inv_pool c ∧ Safety.inv_counted crawl_count0 c.
Proof.
  induction 1 as [|c c' Hc [IH1 IH2] Hstep].
  - split.
    + constructor; simpl; unfold Safety.pool_size, Safety.count_bound, len; simpl;
        [lia | done | lia | constructor | constructor].
    + unfold Safety.inv_counted, len. simpl. lia.
  - split; [| by eapply inv_counted_step].
    eapply inv_pool_step; [| done | done].
    by destruct (reachable_inv _ _ _ _ _ _ _ _ c Hc) as ([_ ? _ _ _] & _).
Qed.

Lemma seed_phase_step c c' :
  crawl_count0 < max_pages -> 0 < max_workers ->
  seed_phase c -> step c c' -> seed_phase c'.
Proof.
  intros HP HW Hs H. destruct c as [V cc tv rep fs k g o].
  destruct Hs as [Ht Hf Hv Hc Hk | w Ht Hf Hg Hd Hk | Hr];
    cbn [visited crawl_count to_visit report futures ctl gets stdout] in *; subst.
  - step_cases H; destruct_or?; simplify_eq; try lia; try done.
    all: try (exfalso; unfold len in *; simpl in *; first [lia | naive_solver]).
    + apply Safety.seed_waiting; simpl; auto.
    + apply Safety.seed_waiting; simpl; auto.
    + eapply Safety.seed_running; simpl; eauto.
  - step_cases H; destruct_or?; simplify_eq; try done.
    all: try match goal with
      | H : [_] !! ?i = Some _ |- _ => destruct i; simplify_eq/=
      end.
    all: try (by exfalso; eapply Hd).
    all: try (by apply Safety.seed_stored; simpl; rewrite lookup_insert_eq).
    all: try (eapply Safety.seed_running; simpl; eauto; done).
    all: try (specialize (Hg eq_refl); lia).
  - step_cases H; apply Safety.seed_stored; simpl; try done.
    rewrite lookup_insert_is_Some. destruct (decide (s = base_url)); auto.
Qed.

Lemma reachable_seed_phase c :
  base_url ∉ visited0 -> crawl_count0 < max_pages -> 0 < max_workers ->
  reachable visited0 crawl_count0 c -> seed_phase c.
Proof.
  intros Hv HP HW. induction 1 as [|c c' _ IH Hstep]; [| by eapply seed_phase_step].
  apply Safety.seed_waiting; simpl; auto.
Qed.

Lemma grows_step c c' :
  reachable visited0 crawl_count0 c -> step c c' -> Safety.grows c c'.
Proof.
  intros Hc H. pose proof (futures_unreported _ _ _ _ _ _ _ _ c Hc) as Hu.
  destruct c as [V cc tv rep fs k g o].
  cbn [visited crawl_count to_visit report futures ctl gets stdout] in *.
  step_cases H.
  all: try match goal with
    | H : _ !! _ = Some _ |- _ =>
        pose proof (Forall_lookup_1 _ _ _ _ Hu H) as Hin; simpl in Hin
    end.
  all: constructor; simpl; try done; try lia.
  all: try (by apply prefix_app_r).
  all: try set_solver.
  all: try (by apply insert_subseteq).
Qed.

Lemma grows_steps c c' :
  reachable visited0 crawl_count0 c -> steps c c' -> Safety.grows c c'.
Proof.
  intros Hc Hs. induction Hs as [c | c c1 c2 H1 _ IH]; [by constructor |].
  destruct (grows_step c c1 Hc H1) as [? ? ? ? ?].
  destruct IH as [? ? ? ? ?]; [by econstructor |].
  constructor; try (etrans; eassumption).
Qed.

Lemma NoDup_length_size (l : list url) (X : gset url) :
  NoDup l -> Forall (fun u => u ∈ X) l -> (length l ≤ size X)%nat.
Proof.
  intros Hn Hf. rewrite <- (size_list_to_set (C := gset url) l Hn).
  apply subseteq_size. intros x Hx%elem_of_list_to_set.
  rewrite Forall_forall in Hf. auto.
Qed.

(** X1 -- the crawl stays on the site.  Whatever a run queues in
    [to_visit], hands to a worker, requests with GET or stores in the
    report is the seed itself or a link that [is_internal_link] accepted
    against the seed: an external link is never followed. *)
Theorem only_internal_links_followed c u :
  reachable visited0 crawl_count0 c ->
  u ∈ to_visit c ∨ u ∈ (futures c).*1 ∨ u ∈ gets c ∨ is_Some (report c !! u) ->
  u = base_url ∨ is_internal_link netloc_of base_url u = Some true.
Proof.
  intros Hc Hu. destruct (reachable_internal c Hc) as [Ht Hf Hr Hg].
  rewrite Forall_forall in Ht. rewrite Forall_forall in Hf.
  rewrite Forall_forall in Hg.
  destruct Hu as [Hu | [Hu | [Hu | Hu]]];
    [by apply Ht | | by apply Hg | by apply Hr].
  apply list_elem_of_fmap in Hu as (x & -> & Hx). by apply Hf.
Qed.

(** X2 -- robots.txt is honoured by every page request.  A page that a
    run has requested with GET (line 81) is one that [can_fetch_url]
    allows: a page that robots.txt denies is never fetched.  The
    statement is about the page requests, which [gets] records; the HEAD
    requests of [check_broken_links] (line 52) are not among them. *)
Theorem requests_respect_robots c u :
  reachable visited0 crawl_count0 c ->
  u ∈ gets c -> can_fetch_url u rp = true.
Proof.
  intros Hc Hu. pose proof (reachable_polite c Hc) as Hp.
  unfold Safety.inv_polite in Hp. rewrite Forall_forall in Hp. auto.
Qed.

(** X3 -- the pool and the counter.  A [with] block never holds more
    than [max_workers] futures.  The test of line 74 and the increment
    of line 103 are separate critical sections, so workers that passed
    the test together may all count: [crawl_count] stays below
    [max_pages - 1 + max_workers] (or at its entry value, when that is
    larger).  Every progress line shows the [max_pages] of the call and
    a counter value that this call has produced. *)
Theorem pool_and_counter_bounded c :
  reachable visited0 crawl_count0 c ->
  len (futures c) ≤ Z.max max_workers 0
  ∧ crawl_count c ≤ Z.max crawl_count0 (max_pages - 1 + Z.max max_workers 0)
  ∧ ∀ n p u, Crawled n p u ∈ stdout c ->
      p = max_pages ∧ crawl_count0 < n ≤ crawl_count c.
Proof.
  intros Hc. destruct (reachable_pool c Hc) as [[Hf _ Hn Ho _] _].
  unfold Safety.count_bound, Safety.pool_size in *. split_and!; [done | lia |].
  intros n p u Hin. rewrite Forall_forall in Ho. by eapply Ho.
Qed.

(** X4 -- the counter never overshoots the budget.  In a process whose
    counter does not exceed the size of [visited] (true at start-up, and
    kept by every call), [crawl_count] grows by at most the number of
    pages requested, stays within the size of [visited], and never
    passes [max_pages] unless it was beyond it on entry: the test of
    line 149 has bounded the pages that can be dispatched. *)
Theorem crawl_count_within_budget c :
  crawl_count0 ≤ Z.of_nat (size visited0) ->
  reachable visited0 crawl_count0 c ->
  crawl_count c ≤ crawl_count0 + len (gets c)
  ∧ crawl_count c ≤ Z.of_nat (size (visited c))
  ∧ crawl_count c ≤ Z.max crawl_count0 max_pages.
Proof.
  intros H0 Hc. destruct (reachable_pool c Hc) as [_ Hn].
  destruct (reachable_inv _ _ _ _ _ _ _ _ c Hc) as ([Hv _ _ _ Hg] & Hb & _ & [Hd _ _]).
  unfold Safety.inv_counted in Hn. unfold inv_budget in Hb.
  pose proof (NoDup_length_size _ _ Hd Hg) as Hl.
  rewrite size_difference in Hl by done.
  pose proof (subseteq_size _ _ Hv) as Hs.
  pose proof (len_nonneg (to_visit c)) as Ht.
  unfold len in *. split_and!; [lia | lia |].
  destruct (decide (max_pages ≤ crawl_count0)) as [HP | HP]; [| lia].
  destruct (exhausted_run _ _ _ _ _ _ _ _ c HP Hc) as [-> | ->]; simpl; lia.
Qed.

(** X5 -- the seed is always reported.  A call that starts with the
    seed unvisited, room in the budget and a positive [max_workers]
    never returns without an entry for the seed in its report. *)
Theorem seed_always_reported c :
  base_url ∉ visited0 -> crawl_count0 < max_pages -> 0 < max_workers ->
  reachable visited0 crawl_count0 c ->
  ctl c = Returned -> is_Some (report c !! base_url).
Proof.
  intros Hv HP HW Hc Hk.
  destruct (reachable_seed_phase c Hv HP HW Hc) as [_ _ _ _ Hw | w _ _ _ _ Hw | Hr];
    [| | done]; rewrite Hk in Hw; by destruct_or!.
Qed.

(** X6 -- nothing is taken back.  Along an execution the globals
    [visited] and [crawl_count] only grow, an entry of the report is
    never removed or overwritten, and the requests and the printed lines
    only extend. *)
Theorem run_only_grows c c' :
  reachable visited0 crawl_count0 c -> steps c c' ->
  visited c ⊆ visited c' ∧ crawl_count c ≤ crawl_count c'
  ∧ report c ⊆ report c'
  ∧ gets c `prefix_of` gets c' ∧ stdout c `prefix_of` stdout c'.
Proof. intros Hc Hs. by destruct (grows_steps c c' Hc Hs). Qed.

(** X7 -- a pool without workers.  With [max_workers <= 0] the
    executor refuses to start: a call that finds room in the budget
    raises at line 130 before anything is dispatched, a call that finds
    none returns; these are the only states of such a run. *)
Theorem no_workers_no_crawl c :
  max_workers ≤ 0 ->
  reachable visited0 crawl_count0 c
  ↔ c = crawl_start visited0 crawl_count0
    ∨ c = with_ctl (crawl_start visited0 crawl_count0)
            (if decide (crawl_count0 < max_pages) then Raised else Returned).
Proof.
  intros HW. split.
  - induction 1 as [|c c' _ IH Hstep]; [by left |]. right.
    destruct IH as [-> | ->]; unfold Crawler.crawl_start in *;
      step_cases Hstep; case_decide; try done; try lia.
  - intros [-> | ->]; [constructor |].
    eapply reach_step; [constructor |]. exists LMain.
    unfold Crawler.crawl_start, with_ctl. simpl. unfold crawl_main, outer_cond. simpl.
    case_decide.
    + rewrite (proj2 (Z.ltb_lt _ _)) by done. by rewrite bool_decide_eq_true_2.
    + by rewrite (proj2 (Z.ltb_ge _ _)) by lia.
Qed.

End SafetyFacts.

(** X8 -- what an answer to the request for robots.txt does to the
    crawl.  An HTTP error 401 or 403 denies every URL, any other 4xx
    allows every URL, and any other HTTP error (a 5xx) denies every URL,
    because nothing was read; a body that decodes is obeyed rule by rule,
    and a rule search that raises counts as an allowance. *)
Theorem robots_policy_by_response u :
  (∀ code, can_fetch_url u (Robots.load (Robots.HTTPError code))
           = bool_decide (400 ≤ code < 500 ∧ code ≠ 401 ∧ code ≠ 403))
  ∧ (∀ rules, can_fetch_url u (Robots.load (Robots.Body true rules))
              = default true (rules u)).
Proof.
  split; [| done]. intros code.
  unfold can_fetch_url, Robots.load, Robots.read, Robots.can_fetch.
  destruct (code =? 401) eqn:E1; simpl.
  { apply Z.eqb_eq in E1. symmetry. apply bool_decide_eq_false. lia. }
  destruct (code =? 403) eqn:E2; simpl.
  { apply Z.eqb_eq in E2. symmetry. apply bool_decide_eq_false. lia. }
  apply Z.eqb_neq in E1, E2.
  destruct (400 <=? code) eqn:E3; simpl.
  - apply Z.leb_le in E3. destruct (code <? 500) eqn:E4; simpl; symmetry.
    + apply Z.ltb_lt in E4. apply bool_decide_eq_true. lia.
    + apply Z.ltb_ge in E4. apply bool_decide_eq_false. lia.
  - apply Z.leb_gt in E3. symmetry. apply bool_decide_eq_false. lia.
Qed.

(** X9 -- lines 148-150.  The loop only appends to [to_visit], in
    document order, links taken from [new_links] that are not in
    [visited]; it appends nothing once [visited] and [to_visit] fill the
    budget and never goes beyond it; with room for all of them it
    appends every unvisited link, without looking whether [to_visit]
    holds it already. *)
Theorem add_links_extends V P tv links :
  ∃ added,
    add_links V P tv links = (tv ++ added)%list
    ∧ added `sublist_of` filter (fun link => link ∉ V) links
    ∧ (added ≠ [] -> Z.of_nat (size V) + len (tv ++ added)%list ≤ P)
    ∧ (P ≤ Z.of_nat (size V) + len tv -> added = [])
    ∧ (Z.of_nat (size V) + len tv
         + len (filter (fun link => link ∉ V) links) ≤ P ->
       added = filter (fun link => link ∉ V) links).
Proof.
  revert tv. induction links as [|l links IH]; intros tv.
  { exists []. rewrite app_nil_r. split_and!; try done. }
  simpl add_links. destruct (bool_decide (l ∉ V)) eqn:Ev; simpl.
  - apply bool_decide_eq_true in Ev. rewrite filter_cons_True by done.
    destruct (_ <? _) eqn:Eb.
    + apply Z.ltb_lt in Eb.
      destruct (IH (tv ++ [l])%list) as (added & -> & Hs & Hb & Hz & Hf).
      exists (l :: added). rewrite <- app_assoc. simpl.
      unfold len in *. rewrite !length_app in *. simpl length in *.
      split_and!; [done | by apply sublist_skip | | lia |].
      * intros _. destruct added as [|x added]; [simpl; lia |].
        simpl length in *.
        specialize (Hb ltac:(done)). lia.
      * intros H. f_equal. apply Hf. lia.
    + apply Z.ltb_ge in Eb.
      destruct (IH tv) as (added & -> & Hs & Hb & Hz & Hf).
      exists added. specialize (Hz Eb). subst added. 
      split_and!; [done | apply sublist_nil_l | done | done |].
      unfold len in *. simpl length. lia.
  - apply bool_decide_eq_false in Ev. rewrite filter_cons_False by done.
    destruct (IH tv) as (added & -> & Hs & Hb & Hz & Hf).
    exists added. split_and!; done.
Qed.

(** ** Instances on the example site *)

Lemma run_app netloc_of net rp base_url max_pages max_workers s1 s2 c :
  run netloc_of net rp base_url max_pages max_workers (s1 ++ s2)%list c
  = run netloc_of net rp base_url max_pages max_workers s2
      (run netloc_of net rp base_url max_pages max_workers s1 c).
Proof.
  revert c. induction s1 as [|l s1 IH]; intros c; simpl; [done |].
  by destruct (step_fn _ _ _ _ _ _ l c).
Qed.

Lemma only_internal_links_followed_example :
  (∀ u, u ∈ to_visit Example.seed_collected ->
        u = Example.a
        ∨ is_internal_link Url.urlparse_netloc Example.a u = Some true)
  ∧ (∀ u, u ∈ gets Example.first_call ->
          u = Example.a
          ∨ is_internal_link Url.urlparse_netloc Example.a u = Some true)
  ∧ Example.other ∉ gets Example.first_call.
Proof.
  split_and!.
  - intros u Hu.
    apply (only_internal_links_followed Url.urlparse_netloc Example.site
             Example.robots Example.a 5 3 ∅ 0 Example.seed_collected u
             (reachable_run _ _ _ _ _ _ _ _ _)).
    left. exact Hu.
  - intros u Hu.
    apply (only_internal_links_followed Url.urlparse_netloc Example.site
             Example.robots Example.a 5 3 ∅ 0 Example.first_call u
             (reachable_run _ _ _ _ _ _ _ _ _)).
    right. right. left. exact Hu.
  - intros Hu.
    destruct (only_internal_links_followed Url.urlparse_netloc Example.site
                Example.robots Example.a 5 3 ∅ 0 Example.first_call Example.other
                (reachable_run _ _ _ _ _ _ _ _ _)) as [H | H];
      [right; right; left; exact Hu | discriminate H | vm_compute in H; discriminate H].
Defined.

Lemma requests_respect_robots_example :
  (Example.secret ∉ gets Example.first_call)
  ∧ can_fetch_url Example.secret Example.robots = false.
Proof.
  split; [| reflexivity]. intros Hu.
  pose proof (requests_respect_robots Url.urlparse_netloc Example.site
                Example.robots Example.a 5 3 ∅ 0 Example.first_call Example.secret
                (reachable_run _ _ _ _ _ _ _ _ _) Hu) as H.
  vm_compute in H. discriminate H.
Defined.

Lemma pool_and_counter_bounded_example :
  len (futures Example.seed_collected) ≤ 3
  ∧ crawl_count Example.seed_collected ≤ 7.
Proof.
  destruct (pool_and_counter_bounded Url.urlparse_netloc Example.site
              Example.robots Example.a 5 3 ∅ 0 Example.seed_collected
              (reachable_run _ _ _ _ _ _ _ _ _)) as (Hf & Hn & _).
  split; [exact Hf | exact Hn].
Defined.

Lemma crawl_count_within_budget_example :
  crawl_count Example.first_call ≤ 0 + len (gets Example.first_call)
  ∧ crawl_count Example.first_call ≤ Z.of_nat (size (visited Example.first_call))
  ∧ crawl_count Example.first_call ≤ 5.
Proof.
  destruct (crawl_count_within_budget Url.urlparse_netloc Example.site
              Example.robots Example.a 5 3 ∅ 0 Example.first_call)
    as (Hg & Hv & Hn); [vm_compute; discriminate | apply reachable_run |].
  split_and!; [exact Hg | exact Hv | exact Hn].
Defined.

Lemma seed_always_reported_example :
  is_Some (report Example.first_call !! Example.a).
Proof.
  apply (seed_always_reported Url.urlparse_netloc Example.site Example.robots
           Example.a 5 3 ∅ 0 Example.first_call);
    [set_solver | lia | lia | apply reachable_run | vm_compute; reflexivity].
Defined.

Lemma run_only_grows_example :
  report Example.seed_collected ⊆ report Example.first_call
  ∧ gets Example.seed_collected `prefix_of` gets Example.first_call.
Proof.
  destruct (run_only_grows Url.urlparse_netloc Example.site Example.robots
              Example.a 5 3 ∅ 0 Example.seed_collected Example.first_call)
    as (_ & _ & Hr & Hg & _).
  - apply reachable_run.
  - unfold Example.first_call, Example.crawl, Example.seed_collected.
    change (Example.schedule 40)
      with (Example.schedule 10 ++ Example.schedule 30)%list.
    rewrite run_app. apply steps_run.
  - split; [exact Hr | exact Hg].
Defined.

Lemma no_workers_no_crawl_example :
  reachable Url.urlparse_netloc Example.site Example.robots Example.a 5 0 ∅ 0
    (with_ctl (crawl_start Example.a ∅ 0) Raised).
Proof.
  apply (no_workers_no_crawl Url.urlparse_netloc Example.site Example.robots
           Example.a 5 0 ∅ 0); [lia | right; reflexivity].
Defined.

(** * The page analysis *)

(** ** Strings *)

Lemma append_nil_l s : "" +:+ s = s.
Proof. done. Qed.

Lemma append_cons c s1 s2 : String c s1 +:+ s2 = String c (s1 +:+ s2).
Proof. done. Qed.

Ltac strings := rewrite ?append_cons, ?append_nil_l in *.

Lemma append_nil_r s : s +:+ "" = s.
Proof. induction s as [|c s IH]; strings; [done | by rewrite IH]. Qed.

Lemma append_assoc s1 s2 s3 : (s1 +:+ s2) +:+ s3 = s1 +:+ (s2 +:+ s3).
Proof. induction s1 as [|c s1 IH]; strings; [done | by rewrite IH]. Qed.

Lemma append_eq_nil s1 s2 : s1 +:+ s2 = "" -> s1 = "" ∧ s2 = "".
Proof. destruct s1; strings; [done | discriminate]. Qed.

Lemma all_chars_app p s1 s2 :
  Text.all_chars p (s1 +:+ s2) = Text.all_chars p s1 && Text.all_chars p s2.
Proof.
  induction s1 as [|c s1 IH]; strings; simpl; [done |]. rewrite IH. by rewrite andb_assoc.
Qed.

Lemma all_chars_impl (p q : ascii -> bool) s :
  (∀ c, p c = true -> q c = true) ->
  Text.all_chars p s = true -> Text.all_chars q s = true.
Proof.
  intros Hpq. induction s as [|c s IH]; simpl; [done |].
  intros [Hc Hs]%andb_prop. rewrite (Hpq c Hc). by apply IH.
Qed.

Lemma eqb_empty_false s : s ≠ "" -> String.eqb s "" = false.
Proof. by destruct s. Qed.

(** ** [str.split()] and [" ".join] *)

Lemma split_from_word word s t :
  Text.all_chars (fun c => negb (Text.is_space c)) s = true ->
  Text.split_from word (s +:+ t) = Text.split_from (word +:+ s) t.
Proof.
  revert word. induction s as [|c s IH]; intros word; strings; simpl.
  { by rewrite append_nil_r. }
  intros [Hc Hs]%andb_prop. apply negb_true_iff in Hc. rewrite Hc.
  rewrite IH by done. by rewrite append_assoc.
Qed.

Lemma split_from_spaceless word t :
  word = "" ∨ Text.spaceless word -> Forall Text.spaceless (Text.split_from word t).
Proof.
  revert word. induction t as [|c t IH]; intros word Hw; simpl.
  - destruct Hw as [-> | Hw]; [constructor |].
    rewrite eqb_empty_false by apply Hw. by apply Forall_singleton.
  - destruct (Text.is_space c) eqn:Ec.
    + destruct Hw as [-> | Hw]; [apply IH; by left |].
      rewrite eqb_empty_false by apply Hw. constructor; [done | apply IH; by left].
    + apply IH. right. split.
      * intros [_ ?]%append_eq_nil. done.
      * rewrite all_chars_app. simpl. rewrite Ec. simpl. rewrite andb_true_r.
        by destruct Hw as [-> | [_ Hw]].
Qed.

Lemma split_join ws :
  Forall Text.spaceless ws -> Text.split (String.concat " " ws) = ws.
Proof.
  unfold Text.split. induction 1 as [|w ws [Hne Hw] Hws IH]; [done |].
  destruct ws as [|w' ws].
  - simpl. rewrite <- (append_nil_r w) at 1. rewrite split_from_word by done.
    strings. simpl. by rewrite eqb_empty_false.
  - change (String.concat " " (w :: w' :: ws))
      with (w +:+ String " " (String.concat " " (w' :: ws))).
    rewrite split_from_word by done. strings. cbn [Text.split_from].
    change (Text.is_space " ") with true. cbn iota.
    rewrite eqb_empty_false by done. by rewrite IH.
Qed.

Lemma split_from_nil word t :
  Text.split_from word t = [] ↔ word = "" ∧ Text.all_chars Text.is_space t = true.
Proof.
  revert word. induction t as [|c t IH]; intros word; simpl.
  - destruct word; simpl; naive_solver.
  - destruct (Text.is_space c) eqn:Ec; simpl.
    + destruct word; simpl; [apply IH | naive_solver].
    + rewrite IH. split; [| naive_solver]. intros [[_ ?]%append_eq_nil _]. done.
Qed.

Lemma join_nil ws :
  Forall Text.spaceless ws -> String.concat " " ws = "" -> ws = [].
Proof.
  destruct 1 as [|w ws [Hne _] _]; [done |]. destruct ws; simpl.
  - done.
  - change (w +:+ " " +:+ String.concat " " (s :: ws) = "" -> w :: s :: ws = []).
    intros [? _]%append_eq_nil. done.
Qed.

Lemma join_chars ws :
  Forall Text.spaceless ws ->
  Text.all_chars (fun c => negb (Text.is_space c) || Ascii.eqb c " ")
    (String.concat " " ws) = true.
Proof.
  induction 1 as [|w ws [_ Hw] Hws IH]; [done |].
  assert (Text.all_chars (fun c => negb (Text.is_space c) || Ascii.eqb c " ") w = true)
    as Hw' by (eapply all_chars_impl; [| exact Hw]; by intros c ->).
  destruct ws as [|w' ws]; [done |].
  change (String.concat " " (w :: w' :: ws))
    with (w +:+ String " " (String.concat " " (w' :: ws))).
  rewrite all_chars_app, Hw'. strings. simpl. exact IH.
Qed.

(** ** The pattern of [check_spelling] *)

Lemma letter_is_word c : Text.is_letter c = true -> Text.is_word c = true.
Proof. unfold Text.is_word. by intros ->. Qed.

Lemma space_not_word c : Text.is_space c = true -> Text.is_word c = false.
Proof. destruct c as [[] [] [] [] [] [] [] []]; by vm_compute. Qed.

Lemma findall_from_separator st s c t :
  Text.is_word c = false ->
  Text.findall_from st (s +:+ String c t)
  = (Text.findall_from st s ++ Text.findall t)%list.
Proof.
  intros Hc. assert (Text.is_letter c = false) as Hl.
  { destruct (Text.is_letter c) eqn:E; [| done]. apply letter_is_word in E. congruence. }
  revert st. induction s as [|d s IH]; intros st; strings; simpl.
  - rewrite Hc, Hl. by destruct st.
  - destruct st; repeat case_match; rewrite ?IH; done.
Qed.

Lemma findall_from_letters run s :
  Text.all_chars Text.is_letter s = true ->
  Text.findall_from (Text.Letters run) s = [run +:+ s].
Proof.
  revert run. induction s as [|c s IH]; intros run; simpl.
  { by rewrite append_nil_r. }
  intros [-> Hs]%andb_prop. rewrite IH by done. by rewrite append_assoc.
Qed.

Lemma findall_word w : Text.alphabetic w -> Text.findall w = [w].
Proof.
  intros [Hne Hw]. destruct w as [|c w]; [done |]. simpl in Hw.
  apply andb_prop in Hw as [Hc Hw]. unfold Text.findall. simpl. rewrite Hc.
  by rewrite findall_from_letters.
Qed.

Lemma findall_from_alphabetic st s :
  match st with Text.Letters run => Text.alphabetic run | _ => True end ->
  Forall Text.alphabetic (Text.findall_from st s).
Proof.
  assert (∀ run c, run = "" ∨ Text.alphabetic run -> Text.is_letter c = true ->
            Text.alphabetic (run +:+ String c "")) as Hgrow.
  { intros run c Hr Hc. split; [by intros [_ ?]%append_eq_nil |].
    rewrite all_chars_app. simpl. rewrite Hc. simpl. rewrite andb_true_r.
    by destruct Hr as [-> | [_ Hr]]. }
  revert st. induction s as [|c s IH]; intros st Hst; simpl.
  - destruct st; [constructor | by apply Forall_singleton | constructor].
  - destruct st; repeat case_match; try (by apply IH).
    + apply IH. apply (Hgrow "" c); [by left | done].
    + apply IH. apply Hgrow; [by right | done].
    + constructor; [done | by apply IH].
Qed.

Lemma findall_from_no_match s :
  Text.all_chars Text.is_word s = true -> Text.findall_from Text.NoMatch s = [].
Proof.
  induction s as [|c s IH]; simpl; [done |].
  intros [Hc Hs]%andb_prop. rewrite Hc. by apply IH.
Qed.

Lemma findall_from_spoiled st s :
  st ≠ Text.NoMatch ->
  Text.all_chars Text.is_word s = true ->
  Text.all_chars Text.is_letter s = false ->
  Text.findall_from st s = [].
Proof.
  revert st. induction s as [|c s IH]; intros st Hst; simpl; [done |].
  intros [Hc Hs]%andb_prop Hl. rewrite Hc.
  destruct (Text.is_letter c) eqn:El; simpl in Hl.
  - destruct st; [by apply IH | by apply IH | done].
  - destruct st; [| | done]; by apply findall_from_no_match.
Qed.

Lemma findall_split_from word t :
  Text.findall (word +:+ t) = concat (Text.findall <$> Text.split_from word t).
Proof.
  revert word. induction t as [|c t IH]; intros word; simpl.
  - rewrite append_nil_r. destruct word; simpl; [done | by rewrite app_nil_r].
  - destruct (Text.is_space c) eqn:Ec.
    + unfold Text.findall at 1.
      rewrite findall_from_separator by (by apply space_not_word).
      specialize (IH ""). strings. rewrite IH.
      destruct word; simpl; done.
    + rewrite <- IH. by rewrite append_assoc.
Qed.

Lemma findall_join ws :
  Text.findall (String.concat " " ws) = concat (Text.findall <$> ws).
Proof.
  induction ws as [|w ws IH]; [done |]. destruct ws as [|w' ws].
  { simpl. by rewrite app_nil_r. }
  change (String.concat " " (w :: w' :: ws))
    with (w +:+ String " " (String.concat " " (w' :: ws))).
  unfold Text.findall at 1. rewrite findall_from_separator by done.
  fold (Text.findall w). by rewrite IH.
Qed.

(** ** The parse tree *)

Lemma node_induction (P : Html.node -> Prop) :
  (∀ s, P (Html.Text s)) -> (∀ s, P (Html.Special s)) ->
  (∀ name attrs children, Forall P children -> P (Html.Element name attrs children)) ->
  ∀ n, P n.
Proof.
  intros HT HS HE. fix IH 1. intros [s | s | name attrs children]; [apply HT | apply HS |].
  apply HE. induction children as [|x children IHc]; constructor; [apply IH | apply IHc].
Qed.

Lemma soup_induction (P : Html.node -> Prop) (Q : list Html.node -> Prop) :
  (∀ soup, Forall P soup -> Q soup) ->
  (∀ s, P (Html.Text s)) -> (∀ s, P (Html.Special s)) ->
  (∀ name attrs children, Q children -> P (Html.Element name attrs children)) ->
  ∀ soup, Q soup.
Proof.
  intros HQ HT HS HE soup. apply HQ.
  induction soup as [|n soup IH]; constructor; [| done].
  induction n as [s | s | name attrs children IHn] using node_induction; auto.
Qed.

Lemma flat_map_sublist {A B} (f g : A -> list B) l :
  Forall (fun x => f x `sublist_of` g x) l ->
  flat_map f l `sublist_of` flat_map g l.
Proof. induction 1; simpl; [done | by apply sublist_app]. Qed.

Lemma flat_map_flat_map {A B C} (f : A -> list B) (g : B -> list C) l :
  flat_map g (flat_map f l) = flat_map (fun x => flat_map g (f x)) l.
Proof.
  induction l as [|x l IH]; simpl; [done |]. by rewrite flat_map_app, IH.
Qed.

Lemma flat_map_ext_Forall {A B} (f g : A -> list B) l :
  Forall (fun x => f x = g x) l -> flat_map f l = flat_map g l.
Proof. induction 1; simpl; [done | congruence]. Qed.

Lemma find_all_extract_sublist names hide soup :
  Html.find_all names (Html.extract hide soup) `sublist_of` Html.find_all names soup.
Proof.
  unfold Html.find_all, Html.extract.
  apply (soup_induction
    (fun n => flat_map (Html.node_find_all names) (Html.node_extract hide n)
              `sublist_of` Html.node_find_all names n)
    (fun soup => flat_map (Html.node_find_all names)
                   (flat_map (Html.node_extract hide) soup)
                 `sublist_of` flat_map (Html.node_find_all names) soup)).
  - intros l Hl. rewrite flat_map_flat_map. by apply flat_map_sublist.
  - done.
  - done.
  - intros name attrs children IH. simpl. case_bool_decide; simpl.
    + apply sublist_nil_l.
    + rewrite app_nil_r. by apply sublist_app.
Qed.

Lemma all_strings_extract_sublist hide soup :
  Html.all_strings (Html.extract hide soup) `sublist_of` Html.all_strings soup.
Proof.
  unfold Html.all_strings, Html.extract.
  apply (soup_induction
    (fun n => flat_map Html.node_strings (Html.node_extract hide n)
              `sublist_of` Html.node_strings n)
    (fun soup => flat_map Html.node_strings (flat_map (Html.node_extract hide) soup)
                 `sublist_of` flat_map Html.node_strings soup)).
  - intros l Hl. rewrite flat_map_flat_map. by apply flat_map_sublist.
  - done.
  - done.
  - intros name attrs children IH. simpl. case_bool_decide; simpl.
    + apply sublist_nil_l.
    + by rewrite app_nil_r.
Qed.

Lemma find_all_extract_names names hide soup :
  Forall (fun t => Html.tag_name t ∉ hide)
    (Html.find_all names (Html.extract hide soup)).
Proof.
  unfold Html.find_all, Html.extract.
  apply (soup_induction
    (fun n => Forall (fun t => Html.tag_name t ∉ hide)
                (flat_map (Html.node_find_all names) (Html.node_extract hide n)))
    (fun soup => Forall (fun t => Html.tag_name t ∉ hide)
                   (flat_map (Html.node_find_all names)
                      (flat_map (Html.node_extract hide) soup)))).
  - intros l Hl. rewrite flat_map_flat_map.
    induction Hl; simpl; [constructor | by apply Forall_app_2].
  - constructor.
  - constructor.
  - intros name attrs children IH. simpl. case_bool_decide; simpl; [constructor |].
    rewrite app_nil_r. apply Forall_app_2; [| done].
    case_bool_decide; [by apply Forall_singleton | constructor].
Qed.

Lemma extract_idemp hide soup :
  Html.extract hide (Html.extract hide soup) = Html.extract hide soup.
Proof.
  unfold Html.extract.
  apply (soup_induction
    (fun n => flat_map (Html.node_extract hide) (Html.node_extract hide n)
              = Html.node_extract hide n)
    (fun soup => flat_map (Html.node_extract hide)
                   (flat_map (Html.node_extract hide) soup)
                 = flat_map (Html.node_extract hide) soup)).
  - intros l Hl. rewrite flat_map_flat_map. by apply flat_map_ext_Forall.
  - done.
  - done.
  - intros name attrs children IH. simpl. case_bool_decide as Hn; simpl; [done |].
    rewrite bool_decide_eq_false_2 by done. by rewrite IH.
Qed.

Lemma extract_hidden_element hide before name attrs children after :
  name ∈ hide ->
  Html.extract hide (before ++ Html.Element name attrs children :: after)%list
  = Html.extract hide (before ++ after)%list.
Proof.
  intros Hn. unfold Html.extract. rewrite !flat_map_app. simpl.
  by rewrite bool_decide_eq_true_2.
Qed.

(** [find_all] with fewer names finds the tags of these names among
    those found with more names. *)
Lemma find_all_filter names1 names2 soup :
  names1 ⊆ names2 ->
  Html.find_all names1 soup
  = filter (fun t => Html.tag_name t ∈ names1) (Html.find_all names2 soup).
Proof.
  intros Hsub. unfold Html.find_all.
  apply (soup_induction
    (fun n => Html.node_find_all names1 n
              = filter (fun t => Html.tag_name t ∈ names1) (Html.node_find_all names2 n))
    (fun soup => flat_map (Html.node_find_all names1) soup
                 = filter (fun t => Html.tag_name t ∈ names1)
                     (flat_map (Html.node_find_all names2) soup))).
  - intros l Hl. induction Hl as [|n l Hn _ IH]; simpl; [done |].
    by rewrite filter_app, Hn, IH.
  - done.
  - done.
  - intros name attrs children IH. simpl. rewrite filter_app, <- IH. f_equal.
    repeat case_bool_decide; try done.
    + by rewrite filter_cons_True.
    + exfalso. auto.
    + by rewrite filter_cons_False.
Qed.

(** ** [check_broken_links] *)

Section LinkFacts.

Variable resolve : url -> url -> option url.
Variable head : url -> option Z.

Local Abbreviation check := (check_tags resolve head).

Ltac tag_cases :=
  cbn [check_tags];
  repeat match goal with
  | |- context [match ?x with _ => _ end] =>
      lazymatch x with
      | check_tags _ _ _ _ _ _ => fail
      | _ => destruct x eqn:?
      end
  end.

Lemma check_tags_acc u tags requested broken :
  check u tags requested broken
  = ((requested ++ (check u tags [] []).1)%list,
     (fun l => (broken ++ l)%list) <$> (check u tags [] []).2).
Proof.
  revert requested broken. induction tags as [|t tags IH]; intros requested broken.
  { simpl. by rewrite !app_nil_r. }
  tag_cases; try apply IH.
  4: { simpl. by rewrite app_nil_r. }
  all: rewrite (IH (requested ++ _)%list), (IH ([] ++ _)%list); simpl;
    rewrite <- !app_assoc; f_equal;
    destruct (check u tags [] []).2; simpl; rewrite <- ?app_assoc; done.
Qed.

Lemma check_tags_app u tags1 tags2 requested broken :
  check u (tags1 ++ tags2) requested broken
  = match check u tags1 requested broken with
    | (requested1, Some broken1) => check u tags2 requested1 broken1
    | (requested1, None) => (requested1, None)
    end.
Proof.
  revert requested broken. induction tags1 as [|t tags1 IH]; intros requested broken.
  { done. }
  rewrite <- app_comm_cons. tag_cases; try apply IH. done.
Qed.

(** What a call has asked, and what it returns. *)
Lemma check_tags_requested u tags :
  Forall (fun x => String.prefix "javascript:" x = false
                   ∧ ∃ t v, t ∈ tags ∧ link_attribute t = Some v ∧ v ≠ ""
                            ∧ urljoin resolve u v = Some x)
    (check u tags [] []).1
  ∧ (length (check u tags [] []).1 ≤ length tags)%nat
  ∧ ∀ found, (check u tags [] []).2 = Some found ->
      found = filter (fun x => is_broken head x = true) (check u tags [] []).1.
Proof.
  induction tags as [|t tags (IH1 & IH2 & IH3)].
  { simpl. split_and!; [constructor | done | by intros ? [= <-]]. }
  assert (Forall (fun x => String.prefix "javascript:" x = false
                   ∧ ∃ t0 v, t0 ∈ t :: tags ∧ link_attribute t0 = Some v ∧ v ≠ ""
                             ∧ urljoin resolve u v = Some x)
            (check u tags [] []).1) as IH1'.
  { eapply Forall_impl; [exact IH1 |]. intros x (? & t0 & v & ? & ?).
    split; [done |]. exists t0, v. split; [by right | done]. }
  simpl length. tag_cases; try (split_and!; [done | lia | done]).
  4: { simpl. split_and!; [constructor | lia | done]. }
  all: cbn [app]; rewrite !(check_tags_acc _ _ (_ :: _)); cbn [fst snd app].
  all: assert (s ≠ "") by (by intros ->).
  all: split_and!;
    [ constructor; [split; [done |]; exists t; exists s; split_and!; [by left | done..] | done]
    | simpl; lia
    | intros found Hf; destruct (check u tags [] []).2 as [b|] eqn:E; [| done];
      cbn in Hf; injection Hf as <-; rewrite (IH3 b eq_refl) at 1 ].
  - rewrite filter_cons_True; [done |]. unfold is_broken. by rewrite Heqo1.
  - rewrite filter_cons_False; [done |]. unfold is_broken. rewrite Heqo1. congruence.
  - rewrite filter_cons_True; [done |]. unfold is_broken. by rewrite Heqo1.
Qed.

(** A call that returns has joined every non-empty [href] and [src]. *)
Lemma check_tags_joined u tags found :
  (check u tags [] []).2 = Some found ->
  Forall (fun t => ∀ v, link_attribute t = Some v -> v ≠ "" ->
            ∃ x, urljoin resolve u v = Some x
                 ∧ (String.prefix "javascript:" x = true
                    ∨ x ∈ (check u tags [] []).1)) tags.
Proof.
  revert found. induction tags as [|t tags IH]; intros found; [constructor |].
  tag_cases; try rewrite (check_tags_acc _ _ ([] ++ _)%list); cbn [fst snd app];
    intros Hf; try done.
  all: try (destruct (check u tags [] []).2 as [b|] eqn:E; [| done];
            specialize (IH b eq_refl)).
  all: try specialize (IH _ Hf).
  all: constructor;
    [ intros v Hv Hne; simplify_eq; try done
    | eapply Forall_impl; [exact IH |]; simpl;
      intros t' Ht' v Hv Hne; destruct (Ht' v Hv Hne) as (x & Hx & [Hjs | Hin]);
      exists x; (split; [done |]); [by left | right; first [done | by right]] ].
  all: try (eexists; split; [done |]; right; by left).
  all: try (eexists; split; [done |]; by left).
  by apply String.eqb_eq in Heqb.
Qed.

(** X10 -- what [check_broken_links] asks and returns.  Every URL it
    sends a HEAD is the [urljoin] of a non-empty [href] of an [a] or
    [src] of an [img], and none starts with ["javascript:"]; it sends at
    most one request per tag; and the list it returns is, in order and
    with repetitions, the requested URLs whose HEAD raised or answered
    400 or more. *)
Theorem check_broken_links_sound soup u :
  Forall (fun x => String.prefix "javascript:" x = false
                   ∧ ∃ t v, t ∈ Html.find_all ["a"; "img"] soup
                            ∧ link_attribute t = Some v ∧ v ≠ ""
                            ∧ urljoin resolve u v = Some x)
    (check_broken_links resolve head soup u).1
  ∧ (length (check_broken_links resolve head soup u).1
     ≤ length (Html.find_all ["a"; "img"] soup))%nat
  ∧ ∀ broken, (check_broken_links resolve head soup u).2 = Some broken ->
      broken = filter (fun x => is_broken head x = true)
                 (check_broken_links resolve head soup u).1.
Proof. apply check_tags_requested. Qed.

(** X11 -- [check_broken_links] goes through the document in order.  On
    a document in two parts it does what it does on the first part and,
    unless [urljoin] raised there, what it does on the second: the
    requests and the broken links of the parts, one after the other. *)
Theorem check_broken_links_app soup1 soup2 u :
  check_broken_links resolve head (soup1 ++ soup2)%list u
  = match check_broken_links resolve head soup1 u with
    | (requested1, Some broken1) =>
        ((requested1 ++ (check_broken_links resolve head soup2 u).1)%list,
         (fun l => (broken1 ++ l)%list)
         <$> (check_broken_links resolve head soup2 u).2)
    | (requested1, None) => (requested1, None)
    end.
Proof.
  unfold check_broken_links, Html.find_all. rewrite flat_map_app, check_tags_app.
  destruct (check u (flat_map _ soup1) [] []) as [requested1 [broken1|]]; [| done].
  apply check_tags_acc.
Qed.

Lemma anchors_joined u tags :
  Forall (fun t => ∀ v, link_attribute t = Some v -> v ≠ "" ->
            ∃ x, urljoin resolve u v = Some x
                 ∧ (String.prefix "javascript:" x = true
                    ∨ x ∈ (check u tags [] []).1)) tags ->
  ∀ found, Forall (fun t => t ∈ tags) found ->
  ∃ links,
    mapM (urljoin resolve u)
      (omap (fun t => Html.tag_attrs t !! "href")
         (filter (fun t => Html.tag_name t ∈ ["a"]) found)) = Some links
    ∧ Forall (fun l => l = u ∨ String.prefix "javascript:" l = true
                       ∨ l ∈ (check u tags [] []).1) links.
Proof.
  intros Hj found Hf. rewrite Forall_forall in Hj.
  induction Hf as [|t found Ht _ (links & IH1 & IH2)]; [by exists [] |].
  destruct (decide (Html.tag_name t ∈ ["a"])) as [Ha | Ha].
  2: { rewrite filter_cons_False by done. by exists links. }
  rewrite filter_cons_True by done. apply list_elem_of_singleton in Ha.
  cbn [omap list_omap]. destruct (Html.tag_attrs t !! "href") as [v|] eqn:Ev.
  2: { by exists links. }
  assert (link_attribute t = Some v) as Hv.
  { unfold link_attribute. by rewrite Ha. }
  assert (∃ x, urljoin resolve u v = Some x
               ∧ (x = u ∨ String.prefix "javascript:" x = true
                  ∨ x ∈ (check u tags [] []).1)) as (x & Hx & Hq).
  { destruct (decide (v = "")) as [-> | Hne].
    - exists u. split; [| by left]. unfold urljoin.
      destruct (String.eqb u "") eqn:E; [| done]. by apply String.eqb_eq in E as ->.
    - destruct (Hj t Ht v Hv Hne) as (x & Hx & Hq). exists x. split; [done | by right]. }
  exists (x :: links). split; [| by constructor].
  cbn [mapM]. rewrite Hx. cbn. fold (mapM (urljoin resolve u)). 
  change (list_omap ?f ?l) with (omap f l). by rewrite IH1.
Qed.

(** X12 -- the loop of lines 92-97 cannot fail at [urljoin].  When
    [check_broken_links] has returned, every [urljoin] of line 93
    returns, and each value is the page's own URL (an empty [href]), a
    ["javascript:"] URL, or a URL that [check_broken_links] has sent a
    HEAD: every link the crawl may follow has been checked. *)
Theorem link_loop_urljoin_returns soup u broken :
  (check_broken_links resolve head soup u).2 = Some broken ->
  ∃ links,
    page_links resolve soup u = Some links
    ∧ Forall (fun l => l = u ∨ String.prefix "javascript:" l = true
                       ∨ l ∈ (check_broken_links resolve head soup u).1) links.
Proof.
  intros Hb. unfold page_links, anchors_with_href.
  rewrite (find_all_filter ["a"] ["a"; "img"]) by set_solver.
  apply anchors_joined; [by eapply check_tags_joined |].
  by apply Forall_forall.
Qed.

End LinkFacts.

(** ** [get_visible_text] and [check_spelling] *)

(** X13 -- the text that [get_visible_text] returns is normalised:
    splitting it at white space and joining the words with single
    spaces gives it back, so it has no white space but single spaces
    between words; its words are those of the text of the tree without
    the tags of line 30; and it is empty exactly when that text is white
    space only. *)
Theorem visible_text_normalised soup :
  let raw := Html.get_text " " (Html.extract hidden soup) in
  let text := (get_visible_text soup).1 in
  String.concat " " (Text.split text) = text
  ∧ Text.split text = Text.split raw
  ∧ Text.all_chars (fun c => negb (Text.is_space c) || Ascii.eqb c " ") text = true
  ∧ (text = "" ↔ Text.all_chars Text.is_space raw = true).
Proof.
  intros raw text. subst text. unfold get_visible_text. cbn [fst]. fold raw.
  assert (Forall Text.spaceless (Text.split raw)) as Hw
    by (apply split_from_spaceless; by left).
  split_and!.
  - by rewrite split_join.
  - by apply split_join.
  - by apply join_chars.
  - split.
    + intros H. apply join_nil in H; [| done]. by apply split_from_nil in H as [_ ?].
    + intros H. unfold Text.split. by rewrite (proj2 (split_from_nil "" raw)).
Qed.

(** X14 -- [get_visible_text] changes the soup it is given.  What it
    leaves holds no tag named [script], [style] or [noscript]; whatever
    [find_all] finds in it, it found in the page, in the same order, and
    so for the strings; a second call returns the same text and leaves
    the soup as it is. *)
Theorem get_visible_text_extracts soup names :
  let soup' := (get_visible_text soup).2 in
  Forall (fun t => Html.tag_name t ∉ hidden) (Html.find_all names soup')
  ∧ Html.find_all names soup' `sublist_of` Html.find_all names soup
  ∧ Html.all_strings soup' `sublist_of` Html.all_strings soup
  ∧ get_visible_text soup' = get_visible_text soup.
Proof.
  unfold get_visible_text. cbn [snd]. split_and!.
  - apply find_all_extract_names.
  - apply find_all_extract_sublist.
  - apply all_strings_extract_sublist.
  - by rewrite extract_idemp.
Qed.

Lemma extract_without_hidden soup soup' :
  without_hidden soup soup' ->
  Html.extract hidden soup = Html.extract hidden soup'.
Proof.
  induction 1 as [before name attrs children after Hn
                 | before name attrs children children' after _ IH].
  - by apply extract_hidden_element.
  - unfold Html.extract in *. rewrite !flat_map_app. f_equal.
    cbn [flat_map Html.node_extract]. by rewrite IH.
Qed.

(** X15 -- a hidden element leaves no trace.  A [script], [style] or
    [noscript] element, wherever it is in the tree, contributes nothing
    to what [process_page] does after line 85: with or without it,
    [get_visible_text] returns the same text and leaves the same soup, so
    [check_broken_links] sends the same requests and line 93 sees the
    same links.  A link inside a [noscript] is neither checked nor
    followed. *)
Theorem hidden_element_leaves_no_trace resolve head soup soup' u :
  without_hidden soup soup' ->
  get_visible_text soup = get_visible_text soup'
  ∧ check_broken_links resolve head (get_visible_text soup).2 u
    = check_broken_links resolve head (get_visible_text soup').2 u
  ∧ page_links resolve (get_visible_text soup).2 u
    = page_links resolve (get_visible_text soup').2 u.
Proof.
  intros Hw.
  assert (get_visible_text soup = get_visible_text soup') as ->; [| done].
  unfold get_visible_text. by rewrite (extract_without_hidden soup soup').
Qed.

(** X16 -- the words that [check_spelling] looks up.  Every match of
    the pattern is a non-empty string of the letters a-z and A-Z; a run
    of word characters that holds a digit, an underscore or a letter
    outside a-z gives no match at all; and the matches of a text are
    those of its parts on either side of a character that is no word
    character. *)
Theorem findall_matches :
  (∀ text, Forall Text.alphabetic (Text.findall text))
  ∧ (∀ s, Text.all_chars Text.is_word s = true ->
          Text.all_chars Text.is_letter s = false -> Text.findall s = [])
  ∧ (∀ w, Text.alphabetic w -> Text.findall w = [w])
  ∧ (∀ s c t, Text.is_word c = false ->
       Text.findall (s +:+ String c t) = (Text.findall s ++ Text.findall t)%list).
Proof.
  split_and!.
  - intros text. by apply findall_from_alphabetic.
  - intros s. by apply findall_from_spoiled.
  - apply findall_word.
  - intros s c t. apply findall_from_separator.
Qed.

Lemma findall_collapse text :
  Text.findall (String.concat " " (Text.split text)) = Text.findall text.
Proof.
  rewrite findall_join. unfold Text.split.
  by rewrite <- (findall_split_from "" text).
Qed.

(** X17 -- [check_spelling].  The dict returned has the words that
    [spell.unknown] gives for the matches of the pattern as keys, each
    with the suggestion of [spell.correction]; and the normalisation of
    white space in [get_visible_text] does not change it: the text as
    [get_text] returned it would give the same dict. *)
Theorem check_spelling_entries spell soup :
  (∀ text word,
     check_spelling spell text !! word
     = if decide (word ∈ unknown spell (Text.findall text))
       then Some (correction spell word) else None)
  ∧ Text.findall (get_visible_text soup).1
    = Text.findall (Html.get_text " " (Html.extract hidden soup))
  ∧ check_spelling spell (get_visible_text soup).1
    = check_spelling spell (Html.get_text " " (Html.extract hidden soup)).
Proof.
  split_and!.
  - intros text word. unfold check_spelling.
    destruct (set_to_map _ _ !! word) as [c|] eqn:E.
    + apply lookup_set_to_map in E as (w & Hw & [= -> <-]); [| by intros ?? _ _ ?].
      by rewrite decide_True.
    + case_decide as Hin; [| done]. exfalso.
      assert (is_Some (set_to_map (M := gmap string (option string))
                         (fun word => (word, correction spell word))
                         (unknown spell (Text.findall text)) !! word)) as [c Hc].
      { eexists. apply lookup_set_to_map; [by intros ?? _ _ ? |]. by exists word. }
      congruence.
  - apply findall_collapse.
  - unfold check_spelling, get_visible_text. cbn [fst]. by rewrite findall_collapse.
Qed.

(** ** [export_report] *)

Lemma count_spelling_cons item summary :
  count_spelling (item :: summary)
  = (size (spelling_issues item.2) + count_spelling summary)%nat.
Proof. done. Qed.

Lemma count_broken_cons item summary :
  count_broken (item :: summary)
  = (length (broken_links item.2) + count_broken summary)%nat.
Proof. done. Qed.

Lemma or_none_length lines :
  length (or_none lines) = Nat.max 1 (length lines).
Proof. destruct lines; simpl; lia. Qed.

Lemma misspelled_words_length summary :
  length (misspelled_words summary) = count_spelling summary.
Proof.
  unfold misspelled_words, count_spelling.
  induction summary as [|item summary IH]; simpl; [done |].
  by rewrite length_app, length_fmap, length_map_to_list, IH.
Qed.

Lemma spelling_pages_nil summary :
  spelling_pages summary = [] ↔ count_spelling summary = 0%nat.
Proof.
  unfold spelling_pages, count_spelling.
  induction summary as [|item summary IH]; simpl; [done |].
  case_bool_decide as He; simpl.
  - rewrite He, map_size_empty. simpl. exact IH.
  - apply map_size_non_empty_iff in He. split; [done | lia].
Qed.

Lemma broken_pages_length summary :
  length (broken_pages summary)
  = (length (filter (fun item => broken_links item.2 ≠ []) summary)
     + count_broken summary)%nat.
Proof.
  unfold broken_pages, count_broken.
  induction summary as [|item summary IH]; [done |].
  cbn [flat_map]. rewrite length_app, IH, fmap_cons. cbn [sum_list sum_list_with].
  destruct (broken_links item.2) as [|l links] eqn:E.
  - rewrite filter_cons_False by (rewrite E; auto). simpl. lia.
  - rewrite filter_cons_True by (by rewrite E).
    cbn [length]. rewrite length_fmap. cbn [length]. unfold id. lia.
Qed.

Lemma clean_summary summary :
  Forall (fun item => spelling_issues item.2 = ∅ ∧ broken_links item.2 = []) summary ->
  spelling_pages summary = [] ∧ misspelled_words summary = []
  ∧ broken_pages summary = []
  ∧ count_spelling summary = 0%nat ∧ count_broken summary = 0%nat.
Proof.
  induction 1 as [|item summary [Hs Hb] _ (IH1 & IH2 & IH3 & IH4 & IH5)]; [done |].
  split_and!.
  - change (spelling_pages (item :: summary))
      with ((if bool_decide (spelling_issues item.2 = ∅) then []
             else [" - " +:+ item.1]) ++ spelling_pages summary)%list.
    by rewrite IH1, bool_decide_eq_true_2.
  - unfold misspelled_words in *. cbn [flat_map]. rewrite IH2, Hs.
    by rewrite map_to_list_empty.
  - unfold broken_pages in *. cbn [flat_map]. by rewrite IH3, Hb.
  - unfold count_spelling in *. rewrite fmap_cons. cbn [sum_list sum_list_with].
    rewrite IH4, Hs, map_size_empty. done.
  - unfold count_broken in *. rewrite fmap_cons. cbn [sum_list sum_list_with].
    by rewrite IH5, Hb.
Qed.

(** X18 -- the report of a clean crawl.  When no page has a spelling
    issue or a broken link, as for the empty report, every section of
    the text file reads " None" and the totals are the number of pages
    and twice zero. *)
Theorem export_report_clean summary :
  Forall (fun item => spelling_issues item.2 = ∅ ∧ broken_links item.2 = []) summary ->
  export_report summary
  = [ "=== Summary Report ==="; "";
      "Page URLs with spelling issues:"; " None"; "";
      "Misspelled words (with suggestions):"; " None"; "";
      "Page URLs with broken links/images:"; " None"; "";
      "=== Crawl Summary ===";
      "Total Pages Crawled: " +:+ pretty (length summary);
      "Total Spelling Mistakes: 0";
      "Total Broken Links/Images: 0" ].
Proof.
  intros H. destruct (clean_summary summary H) as (H1 & H2 & H3 & H4 & H5).
  unfold export_report. by rewrite H1, H2, H3, H4, H5.
Qed.

(** X19 -- the sections and the totals agree.  The section of the
    misspelled words has one line for each entry of each page, as many
    as "Total Spelling Mistakes" (a word misspelled on two pages is
    listed twice); the section of the broken links has one line for
    each page with broken links and one for each link, the latter as
    many as "Total Broken Links/Images"; the two spelling sections read
    " None" together, exactly when the total is zero; and the file has
    a fixed number of lines beside these. *)
Theorem export_report_sections summary :
  length (misspelled_words summary) = count_spelling summary
  ∧ length (broken_pages summary)
    = (length (filter (fun item => broken_links item.2 ≠ []) summary)
       + count_broken summary)%nat
  ∧ (spelling_pages summary = [] ↔ count_spelling summary = 0%nat)
  ∧ (misspelled_words summary = [] ↔ count_spelling summary = 0%nat)
  ∧ (broken_pages summary = [] ↔ count_broken summary = 0%nat)
  ∧ length (export_report summary)
    = (12 + Nat.max 1 (length (spelling_pages summary))
       + Nat.max 1 (count_spelling summary)
       + Nat.max 1 (length (broken_pages summary)))%nat.
Proof.
  pose proof (misspelled_words_length summary) as Hm.
  pose proof (broken_pages_length summary) as Hb.
  split_and!; [done | done | apply spelling_pages_nil | | |].
  - rewrite <- Hm. by destruct (misspelled_words summary).
  - split.
    + intros H. rewrite H in Hb. simpl in Hb. lia.
    + intros H. rewrite H, Nat.add_0_r in Hb.
      assert (filter (fun item => broken_links item.2 ≠ []) summary = []) as Hf.
      { clear Hb Hm.
        induction summary as [|item summary IH]; [done |].
        rewrite count_broken_cons in H.
        rewrite filter_cons_False; [apply IH; lia |].
        destruct (broken_links item.2); [auto | simpl in H; lia]. }
      rewrite Hf in Hb. by destruct (broken_pages summary).
  - unfold export_report. rewrite !length_app, !or_none_length, Hm. simpl. lia.
Qed.

Lemma count_spelling_perm s1 s2 : s1 ≡ₚ s2 -> count_spelling s1 = count_spelling s2.
Proof. induction 1; rewrite ?count_spelling_cons; lia. Qed.

Lemma count_broken_perm s1 s2 : s1 ≡ₚ s2 -> count_broken s1 = count_broken s2.
Proof. induction 1; rewrite ?count_broken_cons; lia. Qed.

Lemma count_spelling_map (m : gmap url page_result) :
  count_spelling (map_to_list m) = total_spelling m.
Proof.
  unfold total_spelling. rewrite map_fold_foldr.
  induction (map_to_list m) as [|[k r] l IH]; [done |].
  rewrite count_spelling_cons, IH. done.
Qed.

Lemma count_broken_map (m : gmap url page_result) :
  count_broken (map_to_list m) = total_broken m.
Proof.
  unfold total_broken. rewrite map_fold_foldr.
  induction (map_to_list m) as [|[k r] l IH]; [done |].
  rewrite count_broken_cons, IH. done.
Qed.

(** X20 -- the summary block of a report.  Whatever the order in which
    the dict [report] yields its items, the text file ends with the
    block [crawl_summary report]: the totals do not depend on the order
    of the pages. *)
Theorem export_report_summary (report : gmap url page_result) summary :
  summary ≡ₚ map_to_list report ->
  ∃ body, export_report summary = (body ++ "" :: crawl_summary report)%list.
Proof.
  intros Hp. eexists. unfold export_report, crawl_summary, total_pages.
  rewrite (count_spelling_perm _ _ Hp), (count_broken_perm _ _ Hp).
  rewrite count_spelling_map, count_broken_map, (Permutation_length Hp).
  rewrite length_map_to_list. rewrite !app_assoc. reflexivity.
Qed.

(** ** Instances on the example page *)

Lemma link_loop_urljoin_returns_example :
  ∃ links,
    page_links ExamplePage.resolve (get_visible_text ExamplePage.page).2 Example.a
    = Some links
    ∧ Forall (fun l => l = Example.a ∨ String.prefix "javascript:" l = true
                       ∨ l ∈ (check_broken_links ExamplePage.resolve ExamplePage.head
                                (get_visible_text ExamplePage.page).2 Example.a).1)
        links.
Proof.
  apply (link_loop_urljoin_returns ExamplePage.resolve ExamplePage.head
           (get_visible_text ExamplePage.page).2 Example.a [Example.b]).
  vm_compute. reflexivity.
Defined.

Lemma hidden_element_leaves_no_trace_example :
  get_visible_text ExamplePage.page = get_visible_text ExamplePage.page_without_noscript
  ∧ check_broken_links ExamplePage.resolve ExamplePage.head
      (get_visible_text ExamplePage.page).2 Example.a
    = ([Example.b; Example.other], Some [Example.b])
  ∧ (check_broken_links ExamplePage.resolve ExamplePage.head
       ExamplePage.page Example.a).1
    = [Example.b; Example.secret; Example.other].
Proof.
  destruct (hidden_element_leaves_no_trace ExamplePage.resolve ExamplePage.head
              ExamplePage.page ExamplePage.page_without_noscript Example.a)
    as (Ht & Hc & _).
  - apply (hidden_below [] "html" ∅ _ _ []).
    apply (hidden_below [Html.Element "head" ∅
                           [Html.Element "style" ∅ [Html.Special "a { color: red }"]]]
             "body" ∅ _ _ []).
    apply (hidden_here [Html.Text "Helo  wrld"; ExamplePage.link Example.b]
             "noscript" ∅ [ExamplePage.link Example.secret]
             [Html.Element "img" {["src" := "javascript:void(0)"]} [];
              Html.Element "a" ∅ [Html.Text "no target"];
              ExamplePage.link Example.other]).
    unfold hidden. do 2 apply list_elem_of_further. apply list_elem_of_here.
  - split_and!; [exact Ht | | vm_compute; reflexivity].
    etrans; [exact Hc |]. vm_compute. reflexivity.
Defined.

Lemma export_report_clean_example :
  export_report [(Example.a, empty_result)]
  = [ "=== Summary Report ==="; "";
      "Page URLs with spelling issues:"; " None"; "";
      "Misspelled words (with suggestions):"; " None"; "";
      "Page URLs with broken links/images:"; " None"; "";
      "=== Crawl Summary ===";
      "Total Pages Crawled: 1";
      "Total Spelling Mistakes: 0";
      "Total Broken Links/Images: 0" ].
Proof.
  apply (export_report_clean [(Example.a, empty_result)]).
  apply Forall_singleton. split; reflexivity.
Defined.

Lemma export_report_summary_example :
  ∃ body,
    export_report (map_to_list (report Example.first_call))
    = (body ++ "" :: crawl_summary (report Example.first_call))%list.
Proof.
  apply (export_report_summary (report Example.first_call)
           (map_to_list (report Example.first_call))).
  reflexivity.
Defined.

(** * The lines a run prints *)

Section OutputFacts.

Variable netloc_of : url -> option string.
Variable net : url -> get_outcome.
Variable rp : Robots.RobotFileParser.
Variable base_url : url.
Variable max_pages : Z.
Variable max_workers : Z.
Variable visited0 : gset url.
Variable crawl_count0 : Z.

Local Abbreviation step := (step netloc_of net rp base_url max_pages max_workers).
Local Abbreviation reachable := (reachable netloc_of net rp base_url max_pages max_workers).

Ltac bools :=
  repeat match goal with
  | H : bool_decide _ = true |- _ => apply bool_decide_eq_true in H
  | H : bool_decide _ = false |- _ => apply bool_decide_eq_false in H
  | H : _ && _ = true |- _ => apply andb_prop in H as [? ?]
  | H : negb _ = true |- _ => apply negb_true_iff in H
  | H : negb _ = false |- _ => apply negb_false_iff in H
  | H : (_ <? _) = true |- _ => apply Z.ltb_lt in H
  | H : (_ <? _) = false |- _ => apply Z.ltb_ge in H
  | H : _ && _ = false |- _ => apply andb_false_iff in H as [H | H]
  end.

Ltac step_cases H :=
  destruct H as [[|?i|?i] H]; simpl in H;
  [ unfold Crawler.crawl_main in H
  | unfold Crawler.crawl_collect in H
  | unfold Crawler.crawl_worker, Crawler.process_page in H ];
  repeat case_match; simplify_eq;
  unfold with_ctl, with_worker, outer_cond, inner_cond in *; simpl in *;
  simplify_eq; bools.

Lemma inv_requested_step c c' :
  Output.inv_requested c -> step c c' -> Output.inv_requested c'.
Proof.
  intros [Hr Hf Ho] H. destruct c as [V cc tv rep fs k g o]. simpl in *.
  step_cases H.
  all: try match goal with
    | H : _ !! _ = Some _ |- _ =>
        pose proof (Forall_lookup_1 _ _ _ _ Hf H) as Hin; simpl in Hin
    end.
  all: constructor; simpl; try done.
  all: try (apply Forall_delete; done).
  all: try (apply Forall_app_2; [done | apply Forall_singleton; simpl; by intros]).
  all: try (apply Forall_insert; [done |]; simpl; intros; eauto; done).
  all: try (apply Forall_insert; [done |]; simpl; intros (? & ? & ?); simplify_eq; done).
  all: try (intros u r; rewrite lookup_insert_Some; intros [[-> ->] | [_ ?]]; eauto; done).
  all: try (intros u r Hu Hne; apply elem_of_app; left; eauto; done).
  all: try (apply Forall_insert;
            [ eapply Forall_impl; [eassumption |]; simpl; intros;
              apply elem_of_app; left; eauto
            | simpl; intros; apply elem_of_app; right;
              by apply list_elem_of_singleton ]; done).
  all: try (eapply Forall_impl; [eassumption |]; simpl; intros;
            apply elem_of_app; left; eauto; done).
  all: try (apply Forall_app_2; [done |]; apply Forall_singleton; simpl; eauto; done).
  all: try (apply Forall_app_2;
            [ eapply Forall_impl; [eassumption |]; simpl; intros;
              apply elem_of_app; left; eauto
            | apply Forall_singleton; simpl; apply elem_of_app; right;
              by apply list_elem_of_singleton ]; done).
Qed.

Lemma reachable_requested c :
  reachable visited0 crawl_count0 c -> Output.inv_requested c.
Proof.
  induction 1 as [|c c' _ IH Hstep]; [| by eapply inv_requested_step].
  constructor; simpl; [| constructor | constructor].
  intros u r Hu. by rewrite lookup_empty in Hu.
Qed.

Lemma omap_cons_list {A B} (f : A -> option B) x l :
  omap f (x :: l) = (option_list (f x) ++ omap f l)%list.
Proof. simpl. by destruct (f x). Qed.

Lemma omap_insert_perm {A B} (f : A -> option B) l i x y :
  l !! i = Some x ->
  (option_list (f x) ++ omap f (<[i := y]> l))%list
  ≡ₚ (option_list (f y) ++ omap f l)%list.
Proof.
  revert i. induction l as [|z l IH]; intros [|i] H; simpl in H; simplify_eq.
  - change (<[0%nat := y]> (x :: l)) with (y :: l). rewrite !omap_cons_list.
    apply Permutation_app_swap_app.
  - change (<[S i := y]> (z :: l)) with (z :: <[i := y]> l). rewrite !omap_cons_list.
    rewrite Permutation_app_swap_app, (IH i) by done.
    apply Permutation_app_swap_app.
Qed.

Lemma omap_delete_perm {A B} (f : A -> option B) l i x :
  l !! i = Some x ->
  (option_list (f x) ++ omap f (delete i l))%list ≡ₚ omap f l.
Proof.
  revert i. induction l as [|z l IH]; intros [|i] H; simpl in H; simplify_eq.
  - change (delete 0%nat (x :: l)) with l. by rewrite omap_cons_list.
  - change (delete (S i) (z :: l)) with (z :: delete i l). rewrite !omap_cons_list.
    by rewrite Permutation_app_swap_app, (IH i).
Qed.

Lemma counters_snoc o l :
  Output.counters (o ++ [l])
  = (Output.counters o ++ option_list (Output.line_counter l))%list.
Proof.
  unfold Output.counters. rewrite omap_app, omap_cons_list. by rewrite app_nil_r.
Qed.

Lemma counters_bound c n :
  Safety.inv_pool max_pages max_workers crawl_count0 c ->
  n ∈ (Output.counters (stdout c) ++ omap Output.held (futures c))%list ->
  crawl_count0 < n ≤ crawl_count c.
Proof.
  intros [_ _ _ Ho Hw]. rewrite Forall_forall in Ho. rewrite Forall_forall in Hw.
  intros [Hin | Hin]%elem_of_app.
  - apply list_elem_of_omap in Hin as ([m p u | u] & Hl & Hn); simplify_eq/=.
    by destruct (Ho _ Hl _ _ _ eq_refl).
  - apply list_elem_of_omap in Hin as ([u w] & Hx & Hn).
    destruct w; try done. injection Hn as <-. by eapply (Hw _ Hx _ _ _ eq_refl).
Qed.

Lemma inv_numbered_step c c' :
  Safety.inv_pool max_pages max_workers crawl_count0 c ->
  Output.inv_numbered c -> step c c' -> Output.inv_numbered c'.
Proof.
  unfold Output.inv_numbered. intros Hp Hn H.
  assert (crawl_count c + 1 ∉ (Output.counters (stdout c)
                               ++ omap Output.held (futures c))%list) as Hfresh.
  { intros Hin%counters_bound; [lia | done]. }
  clear Hp. destruct c as [V cc tv rep fs k g o].
  cbn [visited crawl_count to_visit report futures ctl gets stdout] in *.
  step_cases H.
  all: try match goal with
    | H : ?l !! ?i = Some ?x |- context [<[?i := ?y]> ?l] =>
        pose proof (omap_insert_perm Output.held l i x y H) as Hperm
    end.
  all: try match goal with
    | H : ?l !! ?i = Some ?x |- context [delete ?i ?l] =>
        pose proof (omap_delete_perm Output.held l i x H) as Hperm
    end.
  all: rewrite ?counters_snoc, ?omap_app; cbn [Output.line_counter option_list omap list_omap];
    rewrite ?app_nil_r.
  all: try done.
  all: try (by apply NoDup_app in Hn as (? & _ & _)).
  all: simpl in Hperm; simpl option_list.
  all: try (rewrite Hperm; simpl; rewrite <- Permutation_middle;
            by apply NoDup_cons).
  all: try (rewrite <- app_assoc; simpl; by rewrite Hperm).
  all: by rewrite Hperm.
Qed.

Lemma reachable_numbered c :
  reachable visited0 crawl_count0 c -> Output.inv_numbered c.
Proof.
  induction 1 as [|c c' Hc IH Hstep]; [constructor |].
  eapply inv_numbered_step; [| done | done].
  by destruct (reachable_pool _ _ _ _ _ _ _ _ c Hc).
Qed.

Lemma counters_length c :
  length (Output.counters (stdout c)) = progress_lines c.
Proof.
  unfold progress_lines, Output.counters.
  induction (stdout c) as [|[n p u | u] o IH]; [done | |].
  - rewrite omap_cons_list, filter_cons_True by done. simpl. by rewrite IH.
  - rewrite omap_cons_list, filter_cons_False by done. done.
Qed.

(** X21 -- nothing is reported or printed for a page that was not
    requested.  A result in the report that is not empty, a progress
    line and an error line all belong to a URL that the run has sent a
    GET. *)
Theorem findings_come_from_requests c :
  reachable visited0 crawl_count0 c ->
  (∀ u r, report c !! u = Some r -> r ≠ empty_result -> u ∈ gets c)
  ∧ (∀ n p u, Crawled n p u ∈ stdout c -> u ∈ gets c)
  ∧ (∀ u, ErrorCrawling u ∈ stdout c -> u ∈ gets c).
Proof.
  intros Hc. destruct (reachable_requested c Hc) as [Hr _ Ho].
  rewrite Forall_forall in Ho. split_and!; [done | |].
  - intros n p u Hin. apply (Ho _ Hin).
  - intros u Hin. apply (Ho _ Hin).
Qed.

(** X22 -- the progress lines are numbered without repetition.  The
    increment and the read of lines 103-104 are one critical section, so
    no two progress lines show the same counter value, in whatever order
    the workers print; and whenever no worker is running (between two
    passes of the outer loop, and when [crawl] returns) the values shown
    are exactly those from the entry value of [crawl_count] plus one up
    to its current value. *)
Theorem progress_lines_numbered c :
  reachable visited0 crawl_count0 c ->
  NoDup (Output.counters (stdout c))
  ∧ (futures c = [] ->
     Output.counters (stdout c)
     ≡ₚ seqZ (crawl_count0 + 1) (crawl_count c - crawl_count0)).
Proof.
  intros Hc. pose proof (reachable_numbered c Hc) as Hn.
  unfold Output.inv_numbered in Hn.
  assert (NoDup (Output.counters (stdout c))) as Hd
    by (by apply NoDup_app in Hn as (? & _ & _)).
  split; [done |]. intros Hf.
  destruct (reachable_pool _ _ _ _ _ _ _ _ c Hc) as [Hp _].
  destruct (reachable_quiet _ _ _ _ _ _ _ _ c Hc) as [_ _ _ Hq].
  rewrite Hf in Hq. simpl in Hq.
  apply submseteq_length_Permutation.
  - apply NoDup_submseteq; [done |]. intros n Hin. apply elem_of_seqZ.
    assert (crawl_count0 < n ≤ crawl_count c); [| lia].
    apply (counters_bound c n Hp). apply elem_of_app. by left.
  - rewrite length_seqZ, counters_length. lia.
Qed.

End OutputFacts.

Lemma findings_come_from_requests_example :
  (∀ n p u, Crawled n p u ∈ stdout Example.first_call ->
            u ∈ gets Example.first_call)
  ∧ (∀ u, ErrorCrawling u ∈ stdout Example.first_call ->
          u ∈ gets Example.first_call).
Proof.
  destruct (findings_come_from_requests Url.urlparse_netloc Example.site
              Example.robots Example.a 5 3 ∅ 0 Example.first_call
              (reachable_run _ _ _ _ _ _ _ _ _)) as (_ & Hp & He).
  split; [exact Hp | exact He].
Defined.

Lemma progress_lines_numbered_example :
  NoDup (Output.counters (stdout Example.first_call))
  ∧ Output.counters (stdout Example.first_call)
    ≡ₚ seqZ 1 (crawl_count Example.first_call).
Proof.
  destruct (progress_lines_numbered Url.urlparse_netloc Example.site
              Example.robots Example.a 5 3 ∅ 0 Example.first_call
              (reachable_run _ _ _ _ _ _ _ _ _)) as (Hd & Hp).
  split; [exact Hd |].
  rewrite <- (Z.sub_0_r (crawl_count Example.first_call)).
  apply Hp. vm_compute. reflexivity.
Defined.

(** * Quiet pages in the exported report *)

Lemma export_report_tail (report : gmap url page_result) summary :
  summary ≡ₚ map_to_list report ->
  ∃ body,
    export_report summary
    = (body ++ [ "Total Pages Crawled: " +:+ pretty (total_pages report);
                 "Total Spelling Mistakes: " +:+ pretty (total_spelling report);
                 "Total Broken Links/Images: " +:+ pretty (total_broken report) ])%list.
Proof.
  intros Hp.
  exists ([ "=== Summary Report ==="; ""; "Page URLs with spelling issues:" ]
          ++ or_none (spelling_pages summary)
          ++ [ ""; "Misspelled words (with suggestions):" ]
          ++ or_none (misspelled_words summary)
          ++ [ ""; "Page URLs with broken links/images:" ]
          ++ or_none (broken_pages summary)
          ++ [ ""; "=== Crawl Summary ===" ])%list.
  unfold export_report, total_pages.
  rewrite (count_spelling_perm _ _ Hp), (count_broken_perm _ _ Hp).
  rewrite count_spelling_map, count_broken_map, (Permutation_length Hp).
  rewrite length_map_to_list. by rewrite <- !app_assoc.
Qed.

Lemma totals_insert_empty (report : gmap url page_result) u :
  report !! u = None ->
  total_pages (<[u := empty_result]> report) = S (total_pages report)
  ∧ total_spelling (<[u := empty_result]> report) = total_spelling report
  ∧ total_broken (<[u := empty_result]> report) = total_broken report.
Proof.
  intros Hu. split_and!.
  - unfold total_pages. by apply map_size_insert_None.
  - rewrite <- !count_spelling_map.
    rewrite (count_spelling_perm _ _ (map_to_list_insert _ _ _ Hu)).
    by rewrite count_spelling_cons.
  - rewrite <- !count_broken_map.
    rewrite (count_broken_perm _ _ (map_to_list_insert _ _ _ Hu)).
    by rewrite count_broken_cons.
Qed.

(** C9 -- quiet pages.  A page that robots.txt denies, or whose GET
    raises, leaves [process_page] with the empty result and is stored in
    the report by the [as_completed] loop.  The text file that
    [export_report] writes for a report counts every entry, so such a
    page adds one to the line "Total Pages Crawled" and nothing to the
    other two totals.  [crawl_count] moves only with the progress lines,
    and no progress line names such a page. *)
Theorem quiet_pages_reported_uncounted
    netloc_of net rp base_url max_pages max_workers visited0 crawl_count0 c :
  reachable netloc_of net rp base_url max_pages max_workers visited0 crawl_count0 c ->
  (∀ u i, quiet net rp u -> futures c !! i = Some (u, WFetch) ->
     ∃ c', crawl_worker netloc_of net rp base_url max_pages i c = Some c'
       ∧ futures c' !! i = Some (u, WDone (Some empty_result) [])
       ∧ crawl_count c' = crawl_count c
       ∧ progress_lines c' = progress_lines c)
  ∧ (∀ u i links, ctl c = Collect ->
       futures c !! i = Some (u, WDone (Some empty_result) links) ->
       ∃ c', crawl_collect max_pages i c = Some c'
         ∧ report c' !! u = Some empty_result
         ∧ total_pages (report c') = S (total_pages (report c))
         ∧ ∀ summary, summary ≡ₚ map_to_list (report c') ->
             ∃ body,
               export_report summary
               = (body
                  ++ [ "Total Pages Crawled: "
                         +:+ pretty (S (total_pages (report c)));
                       "Total Spelling Mistakes: "
                         +:+ pretty (total_spelling (report c));
                       "Total Broken Links/Images: "
                         +:+ pretty (total_broken (report c)) ])%list)
  ∧ (∀ u r, quiet net rp u -> report c !! u = Some r -> r = empty_result)
  ∧ (∀ summary, summary ≡ₚ map_to_list (report c) ->
       ∃ body,
         export_report summary
         = (body
            ++ [ "Total Pages Crawled: " +:+ pretty (size (report c));
                 "Total Spelling Mistakes: "
                   +:+ pretty (total_spelling (report c));
                 "Total Broken Links/Images: "
                   +:+ pretty (total_broken (report c)) ])%list)
  ∧ (∀ n p u, Crawled n p u ∈ stdout c -> ¬ quiet net rp u)
  ∧ crawl_count c
    = crawl_count0 + Z.of_nat (progress_lines c)
      + Z.of_nat (total printing (futures c)).
Proof.
  intros Hc.
  destruct (quiet_pages_run netloc_of net rp base_url max_pages max_workers
              visited0 crawl_count0 c Hc) as (Hw & Hcol & Hr & Ho & Hcnt).
  pose proof (futures_unreported _ _ _ _ _ _ _ _ c Hc) as Hfresh.
  split_and!; [done | | done | | done | done].
  - intros u i links Hk Hi.
    destruct (Hcol u i links Hk Hi) as (c' & Hc' & Hu & Hn).
    exists c'. split_and!; [done | done | done |].
    intros summary Hp.
    assert (report c' = <[u := empty_result]> (report c)) as Hrep.
    { unfold crawl_collect in Hc'. rewrite Hk, Hi in Hc'. by injection Hc' as <-. }
    pose proof (Forall_lookup_1 _ _ _ _ Hfresh Hi) as Hnone. simpl in Hnone.
    destruct (totals_insert_empty (report c) u Hnone) as (Hp1 & Hp2 & Hp3).
    destruct (export_report_tail (report c') summary Hp) as [body Hb].
    exists body. by rewrite Hb, Hrep, Hp1, Hp2, Hp3.
  - intros summary Hp. apply (export_report_tail (report c) summary Hp).
Qed.

Lemma quiet_pages_example :
  (∀ u r, quiet Example.site Example.robots u ->
          report Example.first_call !! u = Some r -> r = empty_result)
  ∧ (∃ body,
       export_report (map_to_list (report Example.first_call))
       = (body ++ [ "Total Pages Crawled: 4";
                    "Total Spelling Mistakes: 0";
                    "Total Broken Links/Images: 0" ])%list)
  ∧ (∀ n p, Crawled n p Example.secret ∉ stdout Example.first_call)
  ∧ (∀ n p, Crawled n p Example.b ∉ stdout Example.first_call)
  ∧ crawl_count Example.first_call
    = 0 + Z.of_nat (progress_lines Example.first_call)
      + Z.of_nat (total printing (futures Example.first_call)).
Proof.
  destruct (quiet_pages_reported_uncounted Url.urlparse_netloc Example.site
              Example.robots Example.a 5 3 ∅ 0 Example.first_call
              (reachable_run _ _ _ _ _ _ _ _ _))
    as (_ & _ & Hr & Hexp & Ho & Hc).
  split_and!; [assumption | | | | assumption].
  - destruct (Hexp (map_to_list (report Example.first_call))) as [body Hb];
      [reflexivity |].
    exists body. rewrite Hb. f_equal.
  - intros n p Hin. apply (Ho n p _ Hin). left. reflexivity.
  - intros n p Hin. apply (Ho n p _ Hin). right. reflexivity.
Defined.
